(** * Mixture of Factor Analyzers ([utils/mfa.py]): model and properties

    A shallow embedding of the class [MFA] of [utils/mfa.py] and the
    properties of its likelihood engine, sampler, shape normalisation,
    cache and persistence.

    Numeric model.  numpy's [float64] arithmetic is idealised by the real
    numbers of the Standard Library: [+], [-], [*], [/], [np.exp],
    [np.log] are the exact real operations, so every statement below is
    a statement of exact arithmetic (rounding is outside the model).  The
    one special value that matters for the modelled code, [nan] as the
    result of [np.sqrt] on a negative number, is modelled explicitly in
    the sampler ([npfloat]).

    Arrays.  Two-dimensional arrays whose shapes the code fixes are
    MathComp matrices ['M_(m, n)]; a one-dimensional array of length [m]
    that numpy broadcasts as a row is a row vector ['rV_m]; the per-sample
    vectors that become columns of the [n x K] output are column vectors
    ['cV_n].  The user-supplied [samples] argument, whose rank is
    inspected by [_rearrange_input], is an [ndarray] carrying its shape.
    The assertions of the source on the shapes of [X] and [c['A']] hold
    by typing.

    State.  [self.components] is a dict from component ids (natural
    numbers) to component dicts; the methods that write the cache keys
    return the new value of [self.components] next to their result, also
    when they raise.  The component dicts stored under distinct keys are
    distinct objects.

    Randomness.  The draws of [np.random] are arguments of the functions
    that use them. *)

From HB Require Import structures.
From Stdlib Require Import Reals Epsilon FunctionalExtensionality String.
From mathcomp Require Import boot order algebra.

Set Implicit Arguments.
Unset Strict Implicit.
Unset Printing Implicit Defensive.

Delimit Scope R_scope with Re.
Import Order.TTheory GRing.Theory Num.Theory.
Local Open Scope ring_scope.

(** Real-number expressions are written in MathComp's ring notations. *)
Bind Scope ring_scope with R.
Arguments ln _%_R.
Arguments exp _%_R.
Arguments sqrt _%_R.

(** ** The reals as a MathComp real field

    The algebraic and order structures of MathComp are put on [R] so that
    matrices, determinants and big sums over [R] are available. *)

Definition R_eqb (x y : R) : bool := if Req_dec_T x y then true else false.

Lemma R_eqbP : Equality.axiom R_eqb.
Proof. by move=> x y; rewrite /R_eqb; case: Req_dec_T => h; constructor. Qed.

HB.instance Definition _ := hasDecEq.Build R R_eqbP.

Definition R_pick (P : pred R) (n : nat) : option R :=
  let x := epsilon (inhabits R0) (fun x => P x) in
  if P x then Some x else None.

Lemma R_pick_some P n x : R_pick P n = Some x -> P x.
Proof. by rewrite /R_pick; case: ifP => // Px [<-]. Qed.

Lemma R_pick_ex (P : pred R) : (exists x, P x) -> exists n, R_pick P n.
Proof.
move=> exP; exists 0%N; rewrite /R_pick.
by rewrite (epsilon_spec (inhabits R0) (fun x => P x) exP).
Qed.

Lemma R_pick_ext (P Q : pred R) : P =1 Q -> R_pick P =1 R_pick Q.
Proof.
move=> eqPQ n; rewrite /R_pick.
have -> : (fun x => P x : Prop) = (fun x => Q x).
  by apply: functional_extensionality => x; rewrite eqPQ.
by rewrite eqPQ.
Qed.

HB.instance Definition _ :=
  hasChoice.Build R R_pick_some R_pick_ex R_pick_ext.

Fact R_addA : associative Rplus.
Proof. by move=> x y z; rewrite Rplus_assoc. Qed.

Fact R_mulA : associative Rmult.
Proof. by move=> x y z; rewrite Rmult_assoc. Qed.

HB.instance Definition _ :=
  GRing.isZmodule.Build R R_addA Rplus_comm Rplus_0_l Rplus_opp_l.

Fact R_one_neq0 : R1 != R0.
Proof. by apply/eqP; exact: R1_neq_R0. Qed.

HB.instance Definition _ :=
  GRing.Zmodule_isComNzRing.Build R
    R_mulA Rmult_comm Rmult_1_l Rmult_plus_distr_r R_one_neq0.

Definition R_unit : pred R := fun x => x != 0.
Definition R_inv (x : R) : R := if x == 0 then x else Rinv x.

Fact R_mulVx : {in R_unit, left_inverse 1 R_inv *%R}.
Proof.
move=> x; rewrite /R_inv -topredE /= /R_unit => /negbTE nz; rewrite nz.
by apply: Rinv_l; apply/eqP; rewrite nz.
Qed.

Fact R_unitPl (x y : R) : y * x = 1 -> R_unit x.
Proof.
move=> yx1; apply/eqP => x0; move: yx1.
by rewrite x0 mulr0 => /esym/eqP; rewrite oner_eq0.
Qed.

Fact R_inv_out : {in predC R_unit, R_inv =1 id}.
Proof. by move=> x; rewrite inE /= /R_unit negbK /R_inv => ->. Qed.

HB.instance Definition _ :=
  GRing.ComNzRing_hasMulInverse.Build R R_mulVx R_unitPl R_inv_out.

Fact R_fieldP : GRing.field_axiom R.
Proof. by []. Qed.

HB.instance Definition _ := GRing.ComUnitRing_isField.Build R R_fieldP.

Definition R_leb (x y : R) : bool := if Rle_dec x y then true else false.
Definition R_ltb (x y : R) : bool := if Rlt_dec x y then true else false.

Lemma R_lebP x y : reflect (Rle x y) (R_leb x y).
Proof. by rewrite /R_leb; case: Rle_dec => h; constructor. Qed.

Lemma R_ltbP x y : reflect (Rlt x y) (R_ltb x y).
Proof. by rewrite /R_ltb; case: Rlt_dec => h; constructor. Qed.

Fact R_le0_add x y : R_leb 0 x -> R_leb 0 y -> R_leb 0 (x + y).
Proof.
by move=> /R_lebP hx /R_lebP hy; apply/R_lebP; exact: Rplus_le_le_0_compat.
Qed.

Fact R_le0_mul x y : R_leb 0 x -> R_leb 0 y -> R_leb 0 (x * y).
Proof.
by move=> /R_lebP hx /R_lebP hy; apply/R_lebP; exact: Rmult_le_pos.
Qed.

Fact R_le0_anti x : R_leb 0 x -> R_leb x 0 -> x = 0.
Proof. by move=> /R_lebP hx /R_lebP hy; exact: Rle_antisym. Qed.

Fact R_sub_ge0 x y : R_leb 0 (y - x) = R_leb x y.
Proof.
apply/R_lebP/R_lebP; rewrite /GRing.add /GRing.opp /GRing.zero /= => h.
  by move: (Rplus_le_compat_r x _ _ h); rewrite Rplus_0_l Rplus_assoc Rplus_opp_l Rplus_0_r.
by move: (Rplus_le_compat_r (Ropp x) _ _ h); rewrite Rplus_opp_r.
Qed.

Fact R_le0_total x : R_leb 0 x || R_leb x 0.
Proof.
case: (Rle_dec 0 x) => [/R_lebP -> //|/Rnot_le_lt/Rlt_le/R_lebP ->].
by rewrite orbT.
Qed.

Fact R_normN x : Rabs (- x) = Rabs x.
Proof. exact: Rabs_Ropp. Qed.

Fact R_ge0_norm x : R_leb 0 x -> Rabs x = x.
Proof. by move/R_lebP; exact: Rabs_pos_eq. Qed.

Fact R_lt_def x y : R_ltb x y = (y != x) && R_leb x y.
Proof.
apply/R_ltbP/andP => [xy|[/eqP yx /R_lebP xy]].
  split; last by apply/R_lebP; exact: Rlt_le.
  by apply/eqP => yx; move: xy; rewrite yx; exact: Rlt_irrefl.
by case: xy => // xy; case: yx.
Qed.

HB.instance Definition _ :=
  Num.IntegralDomain_isLeReal.Build R
    R_le0_add R_le0_mul R_le0_anti R_sub_ge0 R_le0_total
    R_normN R_ge0_norm R_lt_def.

Lemma RltP (x y : R) : reflect (Rlt x y) (x < y).
Proof. exact: R_ltbP. Qed.

Lemma RleP (x y : R) : reflect (Rle x y) (x <= y).
Proof. exact: R_lebP. Qed.

(** ** Python exceptions and results *)

(** The [assert] statements of the source, by site. *)
Inductive assert_site :=
| weights_sum_close_to_one   (* draw_samples: assert abs(sp-1.0) < 1e-5 *)
| batch_has_d_columns        (* _rearrange_input: assert samples.shape[1] == d *)
| point_has_size_d.          (* _rearrange_input: assert samples.size == d *)

Inductive exn :=
| AssertionError of assert_site
| KeyError                   (* missing dict key *)
| IndexError                 (* column index out of bounds *)
| ValueError                 (* max of an empty sequence or axis; scale < 0 *)
| LinAlgError                (* np.linalg.inv on a singular matrix *)
| AttributeError             (* .T / .size on a plain list *)
| StopIteration              (* next(iter(...)) on an empty dict *)
| TypeError                  (* unexpected keyword argument *)
| FileNotFoundError
| UnpicklingError.

(** The error names of the specification's taxonomy, as the source
    signals them: both are failed assertions. *)
Definition InvalidDistributionError := AssertionError weights_sum_close_to_one.
Definition DimensionMismatchError := AssertionError batch_has_d_columns.

Inductive result (T : Type) :=
| Ok of T
| Err of exn.
Arguments Err {T} _.

Definition bind {S T} (r : result S) (f : S -> result T) : result T :=
  match r with
  | Ok x => f x
  | Err e => Err e
  end.

Definition is_ok {T} (r : result T) : bool :=
  if r is Ok _ then true else false.

(** ** Python dictionaries with integer keys

    [self.components] is a [dict]: keys are unique and iteration follows
    insertion order. *)

Definition pydict (V : Type) := seq (nat * V).

Fixpoint dict_get {V} (m : pydict V) (k : nat) : option V :=
  if m is (k', v) :: m' then
    if k' == k then Some v else dict_get m' k
  else None.

(** [m[k] = v]: in place for a present key, appended for a new one. *)
Fixpoint dict_set {V} (m : pydict V) (k : nat) (v : V) : pydict V :=
  if m is (k', v') :: m' then
    if k' == k then (k, v) :: m' else (k', v') :: dict_set m' k v
  else [:: (k, v)].

Definition dict_keys {V} (m : pydict V) : seq nat := unzip1 m.
Definition dict_values {V} (m : pydict V) : seq V := unzip2 m.

(** ** numpy primitives *)

Definition half : R := 2^-1.
Definition eps_weights : R := (10 ^+ 5)^-1.        (* the literal 1e-5 *)

(** [np.log], [np.exp]: numpy yields [nan] or [-inf] (with a warning)
    for [np.log] of a non-positive number; the properties below only
    take logarithms of numbers they prove positive. *)
Definition np_log (x : R) : R := ln x.
Definition np_exp (x : R) : R := exp x.

(** [sum(xs)] of Python: left to right from 0. *)
Definition py_sum (xs : seq R) : R := foldl +%R 0 xs.


(** [max(xs)] of Python: the first maximal element; [ValueError] on an
    empty sequence. *)
Definition py_max (xs : seq R) : result R :=
  if xs is x :: xs' then Ok (foldl (fun m y => if m < y then y else m) x xs')
  else Err ValueError.

Section Broadcast.
Variables m n : nat.

(** [M * v] for [v] of shape [(m, 1)]: row [i] of [M] is scaled by [v i]. *)
Definition bmul_col (M : 'M[R]_(m, n)) (v : 'cV[R]_m) : 'M[R]_(m, n) :=
  \matrix_(i, j) (M i j * v i 0).

(** [M * v] for [v] of shape [(1, n)] or [(n,)]: column [j] is scaled by
    [v j]. *)
Definition bmul_row (M : 'M[R]_(m, n)) (v : 'rV[R]_n) : 'M[R]_(m, n) :=
  \matrix_(i, j) (M i j * v 0 j).

(** [M - v] for [v] of shape [(n,)]: [v] is subtracted from every row. *)
Definition bsub_row (M : 'M[R]_(m, n)) (v : 'rV[R]_n) : 'M[R]_(m, n) :=
  \matrix_(i, j) (M i j - v 0 j).

(** [M + v] for [v] of shape [(n,)]. *)
Definition badd_row (M : 'M[R]_(m, n)) (v : 'rV[R]_n) : 'M[R]_(m, n) :=
  \matrix_(i, j) (M i j + v 0 j).

(** [M - v] for [v] of shape [(m, 1)]. *)
Definition bsub_col (M : 'M[R]_(m, n)) (v : 'cV[R]_m) : 'M[R]_(m, n) :=
  \matrix_(i, j) (M i j - v i 0).

(** [M * N], element-wise. *)
Definition emul (M N : 'M[R]_(m, n)) : 'M[R]_(m, n) :=
  \matrix_(i, j) (M i j * N i j).

(** [np.sum(M, axis=1)]. *)
Definition np_sum_axis1 (M : 'M[R]_(m, n)) : 'cV[R]_m :=
  \col_i \sum_j M i j.

(** [np.exp(M)], element-wise. *)
Definition np_exp_mx (M : 'M[R]_(m, n)) : 'M[R]_(m, n) :=
  map_mx np_exp M.

(** [np.log(M)], element-wise. *)
Definition np_log_mx (M : 'M[R]_(m, n)) : 'M[R]_(m, n) :=
  map_mx np_log M.

End Broadcast.

(** [np.max(M, axis=1, keepdims=True)]: a reduction without identity,
    [ValueError] when the reduced axis is empty. *)
Definition np_max_axis1 (m n : nat) : 'M[R]_(m, n) -> result 'cV[R]_m :=
  match n with
  | 0 => fun _ => Err ValueError
  | n'.+1 => fun M => Ok (\col_i \big[Num.max/M i ord0]_j M i j)
  end.

(** [np.power(D, -1.0).reshape([d, 1])]. *)
Definition np_power_m1_col (d : nat) (D : 'rV[R]_d) : 'cV[R]_d :=
  \col_i (D 0 i)^-1.

(** [np.linalg.inv]: [LinAlgError] on a singular matrix. *)
Definition np_linalg_inv (l : nat) (M : 'M[R]_l) : result 'M[R]_l :=
  if M \in unitmx then Ok (invmx M) else Err LinAlgError.

(** [np.linalg.det]. *)
Definition np_linalg_det (l : nat) (M : 'M[R]_l) : R := \det M.

(** [np.random.uniform(low, high)]: [low + (high - low) * u] for a draw
    [u] of the generator in the half-open unit interval. *)
Definition np_random_uniform (low high u : R) : R := low + (high - low) * u.

(** [np.random.normal(scale=s, size=[m, n])]: [ValueError] for a
    negative scale; otherwise [0 + s * z] for every standard-normal draw
    [z]. *)
Definition np_random_normal (m n : nat) (scale : R) (z : 'M[R]_(m, n)) :
    result 'M[R]_(m, n) :=
  if scale < 0 then Err ValueError
  else Ok (map_mx (fun x => 0 + scale * x) z).

Definition unit_interval (u : R) : Prop := 0 <= u < 1.

(** ** The [samples] argument: an array with its shape *)

Record ndarray := NdArray { shape : seq nat; data : seq R }.

(** [samples.size] *)
Definition np_size (a : ndarray) : nat := \prod_(s <- shape a) s.

(** [np.reshape(a, shp)], used by the source only after the size check. *)
Definition np_reshape (a : ndarray) (shp : seq nat) : ndarray :=
  NdArray shp (data a).

(** The [n x d] matrix held (row-major) by an array of shape [[n, d]]. *)
Definition as_matrix (n d : nat) (a : ndarray) : 'M[R]_(n, d) :=
  \matrix_(i, j) nth 0 (data a) (i * d + j).

(** Number of rows of the batch that [_rearrange_input] returns. *)
Definition batch_rows (a : ndarray) : nat :=
  if size (shape a) == 2 then nth 0 (shape a) 0 else 1.

(** ** Components and mixtures *)

(** The value stored under ['mu']: an array, or (older pickles) a plain
    Python sequence. *)
Inductive pyvec (d : nat) :=
| PySeq of d.-tuple R
| NpVec of 'rV[R]_d.

(** The numbers held by a [mu], as numpy reads either form when it is
    an operand of an array operation. *)
Definition vec_of (d : nat) (v : pyvec d) : 'rV[R]_d :=
  match v with
  | PySeq t => \row_j tnth t j
  | NpVec r => r
  end.

(** [np.array(v)] *)
Definition np_array (d : nat) (v : pyvec d) : pyvec d := NpVec (vec_of v).

Definition is_ndarray (d : nat) (v : pyvec d) : bool :=
  if v is NpVec _ then true else false.

(** A component dict [c]: the keys ['A'], ['D'], ['mu'], ['pi'] and the
    three keys that the first likelihood evaluation adds.  [c_l] is the
    second entry of [c['A'].shape]. *)
Record component (d : nat) := Component {
  c_l : nat;
  c_A : 'M[R]_(d, c_l);
  c_D : 'rV[R]_d;
  c_mu : pyvec d;
  c_pi : R;
  c_inv_sigma1 : option 'M[R]_(c_l, d);
  c_inv_sigma2 : option 'M[R]_(d, c_l);
  c_c_factor : option R
}.

Definition mixture (d : nat) := pydict (component d).

Section ComponentUpdate.
Variable d : nat.
Implicit Type c : component d.

(** [c['inv_sigma1'] = v] *)
Definition set_inv_sigma1 c (v : 'M[R]_(c_l c, d)) : component d :=
  @Component d (c_l c) (c_A c) (c_D c) (c_mu c) (c_pi c)
    (Some v) (c_inv_sigma2 c) (c_c_factor c).

(** [c['inv_sigma2'] = v] *)
Definition set_inv_sigma2 c (v : 'M[R]_(d, c_l c)) : component d :=
  @Component d (c_l c) (c_A c) (c_D c) (c_mu c) (c_pi c)
    (c_inv_sigma1 c) (Some v) (c_c_factor c).

(** [c['c_factor'] = v] *)
Definition set_c_factor c (v : R) : component d :=
  @Component d (c_l c) (c_A c) (c_D c) (c_mu c) (c_pi c)
    (c_inv_sigma1 c) (c_inv_sigma2 c) (Some v).

(** [c['mu'] = v] *)
Definition set_mu c (v : pyvec d) : component d :=
  @Component d (c_l c) (c_A c) (c_D c) v (c_pi c)
    (c_inv_sigma1 c) (c_inv_sigma2 c) (c_c_factor c).

End ComponentUpdate.

Arguments set_inv_sigma1 {d} c v.
Arguments set_inv_sigma2 {d} c v.
Arguments set_c_factor {d} c v.
Arguments set_mu {d} c v.

(** ** [MFA.randomize_params]

    The draws of [np.random] are inputs: [u_pi i], [u_iso i], [u_D i],
    [u_mu i] are draws of the uniform generator on the half-open unit
    interval and [z_A i] standard-normal draws, for component [i]. *)

Definition max_l : nat := 8.                          (* self.max_l *)

Record rng_draws (d : nat) := RngDraws {
  u_pi : nat -> R;
  u_iso : nat -> R;
  u_D : nat -> 'rV[R]_d;
  z_A : nat -> 'M[R]_(d, minn max_l d);
  u_mu : nat -> 'rV[R]_d
}.

Section RandomizeParams.
Variables (num_components dim : nat).
Variables (low_rank_scale noise_variance mu_range : R).
Variable isotropic_noise : bool.
Variable rnd : rng_draws dim.

(** Lines 46-48: the component selection probability vector. *)
Definition randomize_pi : seq R :=
  let pi0 := [seq np_random_uniform 5^-1 1 (u_pi rnd i) | i <- iota 0 num_components] in
  let pi1 := [seq x ^+ 2 | x <- pi0] in
  let s := \sum_(x <- pi1) x in
  [seq x / s | x <- pi1].

(** Lines 53-61: one iteration of the loop.  [np.ones(size=[d])] is not
    a call that numpy accepts ([np.ones] has no [size] parameter), so
    the isotropic branch raises [TypeError]. *)
Definition randomize_component (i : nat) : result (component dim) :=
  if isotropic_noise then Err TypeError
  else
    let D := \row_j np_random_uniform (noise_variance / 10) noise_variance (u_D rnd i 0 j) in
    bind (np_random_normal low_rank_scale (z_A rnd i)) (fun A =>
      let mu :=
        \row_j np_random_uniform (- mu_range) mu_range (u_mu rnd i 0 j) in
      Ok (@Component dim (minn max_l dim) A D (NpVec mu)
            (nth 0 randomize_pi i) None None None)).

(** The new value of [self.components], with the exception raised if
    any. *)
Definition randomize_params : result unit * mixture dim :=
  foldl (fun acc i =>
           match acc with
           | (Err e, comps) => (Err e, comps)
           | (Ok _, comps) =>
             match randomize_component i with
             | Err e => (Err e, comps)
             | Ok c => (Ok tt, dict_set comps i c)
             end
           end)
        (Ok tt, [::]) (iota 0 num_components).

End RandomizeParams.

(** ** [MFA._draw_from_component]

    A float that may be [nan]: the value of [np.sqrt] on a negative
    number (numpy warns and returns [nan]; it raises nothing). *)
Inductive npfloat :=
| Finite of R
| NaN.

Definition np_sqrt (x : R) : npfloat :=
  if x < 0 then NaN else Finite (sqrt x).

Definition fadd (x y : npfloat) : npfloat :=
  match x, y with
  | Finite a, Finite b => Finite (a + b)
  | _, _ => NaN
  end.

Definition fmul (x y : npfloat) : npfloat :=
  match x, y with
  | Finite a, Finite b => Finite (a * b)
  | _, _ => NaN
  end.

Definition is_nan (x : npfloat) : bool :=
  if x is NaN then true else false.

(** [z_l] and [z_d] are the two standard-normal draws of the body;
    [c['mu'].T] needs an array. *)
Definition _draw_from_component (d num_samples : nat) (c : component d)
    (add_noise : bool)
    (z_l : 'M[R]_(num_samples, c_l c)) (z_d : 'M[R]_(num_samples, d)) :
    result 'M[npfloat]_(num_samples, d) :=
  match c_mu c with
  | PySeq _ => Err AttributeError
  | NpVec mu =>
    let X := badd_row (z_l *m (c_A c)^T) mu in
    if add_noise then
      Ok (\matrix_(i, j)
            fadd (Finite (X i j))
                 (fmul (Finite (z_d i j)) (np_sqrt (c_D c 0 j))))
    else Ok (map_mx Finite X)
  end.

Arguments _draw_from_component {d num_samples} c add_noise z_l z_d.

(** ** [MFA.draw_samples], lines 75-81

    The weight vector [pi] that the body hands to [np.random.choice]. *)
Definition draw_samples_pi (d : nat) (self : mixture d) : result (seq R) :=
  let pi := [seq c_pi c | c <- dict_values self] in
  let sp := py_sum pi in
  if sp == 1 then Ok pi
  else if `|sp - 1| < eps_weights then
    bind (py_max pi) (fun mx =>
      let max_comp := index mx pi in
      Ok (set_nth 0 pi max_comp (nth 0 pi max_comp - (sp - 1))))
  else Err (AssertionError weights_sum_close_to_one).

(** ** The likelihood engine *)

Section Likelihood.
Variable d : nat.

(** [IPiDP = np.eye(l) + c['A'].T @ (c['A'] * invD)] *)
Definition IPiDP (c : component d) (invD : 'cV[R]_d) : 'M[R]_(c_l c) :=
  1%:M + (c_A c)^T *m bmul_col (c_A c) invD.

(** [c['A'].T * invD.T] *)
Definition inv_sigma1_of (c : component d) (invD : 'cV[R]_d) :
    'M[R]_(c_l c, d) :=
  bmul_row (c_A c)^T invD^T.

(** [(np.linalg.inv(IPiDP) @ c['A'].T * invD.T).T]; [@] and [*] have the
    same precedence and associate to the left. *)
Definition inv_sigma2_of (c : component d) (invD : 'cV[R]_d)
    (inv_IPiDP : 'M[R]_(c_l c)) : 'M[R]_(d, c_l c) :=
  (bmul_row (inv_IPiDP *m (c_A c)^T) invD^T)^T.

Arguments inv_sigma2_of c invD inv_IPiDP : clear implicits.

(** [d*np.log(2*np.pi) + np.log(np.linalg.det(IPiDP)) + np.sum(np.log(c['D']))] *)
Definition c_factor_of (c : component d) (invD : 'cV[R]_d) : R :=
  let log_dSigma :=
    np_log (np_linalg_det (IPiDP c invD)) + \sum_j np_log (c_D c 0 j) in
  d%:R * np_log (2 * PI) + log_dSigma.

(** [np.sum(X_c * (X_c * invD.T - (X_c @ inv_sigma2) @ inv_sigma1), axis=1)] *)
Definition m_d (n l : nat) (X_c : 'M[R]_(n, d)) (invD : 'cV[R]_d)
    (inv_sigma2 : 'M[R]_(d, l)) (inv_sigma1 : 'M[R]_(l, d)) : 'cV[R]_n :=
  np_sum_axis1
    (emul X_c (bmul_row X_c invD^T - (X_c *m inv_sigma2) *m inv_sigma1)).

(** Lines 129-144: the calculations that do not depend on [X].  The
    component dict is updated in place, key by key, so a failing
    [np.linalg.inv] leaves ['inv_sigma1'] written. *)
Definition cache_calculations (c : component d) (invD : 'cV[R]_d) :
    result unit * component d :=
  let M := IPiDP c invD in
  let c1 := set_inv_sigma1 c (inv_sigma1_of c invD) in
  match np_linalg_inv M with
  | Err e => (Err e, c1)
  | Ok inv_M =>
    let c2 := set_inv_sigma2 c1 (inv_sigma2_of c invD inv_M) in
    (Ok tt, set_c_factor c2 (c_factor_of c invD))
  end.

(** [MFA._get_component_log_probs(self, X, k)].  The assertion on the
    shapes of [X] and [c['A']] holds by typing. *)
Definition _get_component_log_probs (n : nat) (self : mixture d)
    (X : 'M[R]_(n, d)) (k : nat) : result 'cV[R]_n * mixture d :=
  match dict_get self k with
  | None => (Err KeyError, self)
  | Some c =>
    let invD := np_power_m1_col (c_D c) in
    let: (r, c', self') :=
      if c_c_factor c is None then
        let: (r, c') := cache_calculations c invD in
        (r, c', dict_set self k c')
      else (Ok tt, c, self) in
    match r with
    | Err e => (Err e, self')
    | Ok _ =>
      let X_c := bsub_row X (vec_of (c_mu c')) in
      match c_inv_sigma2 c', c_inv_sigma1 c', c_c_factor c' with
      | Some s2, Some s1, Some cf =>
        (Ok (\col_i (- half * (m_d X_c invD s2 s1 i 0 + cf))), self')
      | _, _, _ => (Err KeyError, self')
      end
    end
  end.

(** A task of the pool: [{'comp_num': i, 'c': self.components[i], 'X': X}]. *)
Record task (n : nat) := Task {
  comp_num : nat;
  task_c : component d;
  task_X : 'M[R]_(n, d)
}.

(** [MFA._get_component_log_probs_task(task)] *)
Definition _get_component_log_probs_task (n : nat) (t : task n) :
    result (nat * 'cV[R]_n) :=
  let c := task_c t in
  let X := task_X t in
  let invD := np_power_m1_col (c_D c) in
  let M := IPiDP c invD in
  let inv_sigma1 := inv_sigma1_of c invD in
  bind (np_linalg_inv M) (fun inv_M =>
    let inv_sigma2 := inv_sigma2_of c invD inv_M in
    let c_factor := c_factor_of c invD in
    let X_c := bsub_row X (vec_of (c_mu c)) in
    let md := m_d X_c invD inv_sigma2 inv_sigma1 in
    Ok (comp_num t,
        \col_i (np_log (c_pi c) - half * (md i 0 + c_factor)))).

(** [MFA._log_sum_exp(ns)] *)
Definition _log_sum_exp (n K : nat) (ns : 'M[R]_(n, K)) : result 'cV[R]_n :=
  bind (np_max_axis1 ns) (fun max_vals =>
    let sum_of_exp := np_sum_axis1 (np_exp_mx (bsub_col ns max_vals)) in
    Ok (max_vals + np_log_mx sum_of_exp)).

(** [MFA._rearrange_input(self, samples)] *)
Definition _rearrange_input (self : mixture d) (samples : ndarray) :
    result ndarray :=
  if self is [::] then Err StopIteration
  else if size (shape samples) == 2 then
    if nth 0%N (shape samples) 1 == d then Ok samples
    else Err (AssertionError batch_has_d_columns)
  else if np_size samples == d then Ok (np_reshape samples [:: 1%N; d])
  else Err (AssertionError point_has_size_d).

(** [components_log_probs[:, k] = v] *)
Definition set_column (n K : nat) (out : 'M[R]_(n, K)) (k : nat)
    (v : 'cV[R]_n) : result 'M[R]_(n, K) :=
  if (k < K)%N then
    Ok (\matrix_(i, j) if (j : nat) == k then v i 0 else out i j)
  else Err IndexError.

(** [pool.map(f, tasks)]: the results in task order; a failing task
    fails the whole call. *)
Fixpoint pool_map {S T} (f : S -> result T) (tasks : seq S) :
    result (seq T) :=
  if tasks is t :: tasks' then
    bind (f t) (fun r => bind (pool_map f tasks') (fun rs => Ok (r :: rs)))
  else Ok [::].

(** Lines 181-182: every result is written at its tagged column. *)
Definition merge_results (n K : nat) (comp_results : seq (nat * 'cV[R]_n))
    (out : 'M[R]_(n, K)) : result 'M[R]_(n, K) :=
  foldl (fun acc r => bind acc (fun out => set_column out r.1 r.2))
        (Ok out) comp_results.

(** Lines 176-179: the task list; [self.components[i]] for [i] in
    [range(len(self.components))]. *)
Fixpoint component_tasks (n : nat) (self : mixture d) (X : 'M[R]_(n, d))
    (ids : seq nat) : result (seq (task n)) :=
  if ids is i :: ids' then
    if dict_get self i is Some c then
      bind (component_tasks self X ids') (fun ts => Ok (Task i c X :: ts))
    else Err KeyError
  else Ok [::].

(** [MFA._get_components_log_probabilities_multithreaded(self, samples)].
    The workers receive copies of the components: [self] is unchanged. *)
Definition _get_components_log_probabilities_multithreaded
    (self : mixture d) (samples : ndarray) :
    result 'M[R]_(batch_rows samples, size self) :=
  bind (_rearrange_input self samples) (fun Xa =>
    let X := as_matrix (batch_rows samples) d Xa in
    bind (component_tasks self X (iota 0 (size self))) (fun comonent_tasks =>
      bind (pool_map (@_get_component_log_probs_task _) comonent_tasks)
        (fun comp_results => merge_results comp_results (const_mx 0)))).

(** The loop of [_get_components_log_probabilities]: [for k, c in
    self.components.items()].  [np.log(c['pi'])] is evaluated before the
    call that may add the cache keys to [c]. *)
Definition serial_step (n K : nat) (X : 'M[R]_(n, d))
    (acc : result 'M[R]_(n, K) * mixture d) (kc : nat * component d) :
    result 'M[R]_(n, K) * mixture d :=
  match acc with
  | (Err e, st) => (Err e, st)
  | (Ok out, st) =>
    let log_pi := np_log (c_pi kc.2) in
    match _get_component_log_probs st X kc.1 with
    | (Err e, st') => (Err e, st')
    | (Ok v, st') => (set_column out kc.1 (\col_i (log_pi + v i 0)), st')
    end
  end.

(** [MFA._get_components_log_probabilities(self, samples)]: the matrix
    and the new value of [self.components]. *)
Definition _get_components_log_probabilities
    (self : mixture d) (samples : ndarray) :
    result 'M[R]_(batch_rows samples, size self) * mixture d :=
  match _rearrange_input self samples with
  | Err e => (Err e, self)
  | Ok Xa =>
    let X := as_matrix (batch_rows samples) d Xa in
    foldl (serial_step X) (Ok (const_mx 0), self) self
  end.

(** [MFA.get_log_probabilities(self, samples)] *)
Definition get_log_probabilities (self : mixture d) (samples : ndarray) :
    result 'cV[R]_(batch_rows samples) * mixture d :=
  let: (r, self') := _get_components_log_probabilities self samples in
  (bind r (@_log_sum_exp _ _), self').

(** [MFA.get_log_likelihood(self, samples)] *)
Definition get_log_likelihood (self : mixture d) (samples : ndarray) :
    result R * mixture d :=
  let: (r, self') := get_log_probabilities self samples in
  (bind r (fun v => Ok (\sum_i v i 0)), self').

(** [MFA.get_probabilities(self, samples)] *)
Definition get_probabilities (self : mixture d) (samples : ndarray) :
    result 'cV[R]_(batch_rows samples) * mixture d :=
  let: (r, self') := get_log_probabilities self samples in
  (bind r (fun v => Ok (np_exp_mx v)), self').

(** [MFA.get_log_responsibilities(self, samples)] *)
Definition get_log_responsibilities (self : mixture d) (samples : ndarray) :
    result 'M[R]_(batch_rows samples, size self) * mixture d :=
  let: (r, self') := _get_components_log_probabilities self samples in
  (bind r (fun per_comp_log_probs =>
     bind (_log_sum_exp per_comp_log_probs) (fun lse =>
       Ok (bsub_col per_comp_log_probs lse))),
   self').

(** [MFA.get_responsibilities(self, samples)] *)
Definition get_responsibilities (self : mixture d) (samples : ndarray) :
    result 'M[R]_(batch_rows samples, size self) * mixture d :=
  let: (r, self') := get_log_responsibilities self samples in
  (bind r (fun lr => Ok (np_exp_mx lr)), self').

End Likelihood.

Arguments inv_sigma2_of {d} c invD inv_IPiDP.

(** ** [MFA.save] and [MFA.load]

    [pickle] is an external library: [pickle_dump] and [pickle_load]
    stand for [pickle.dump] and [pickle.load] on the component mapping,
    and the file system maps a path to the bytes stored there. *)

Section Persistence.
Variable d : nat.
Variable blob : Type.
Variable pickle_dump : mixture d -> blob.
Variable pickle_load : blob -> result (mixture d).

Definition filesystem := string -> option blob.

(** [MFA.save(self, file_name)] *)
Definition save (self : mixture d) (file_name : string) (fs : filesystem) :
    filesystem :=
  fun path =>
    if String.eqb path (String.append file_name ".pkl") then
      Some (pickle_dump self)
    else fs path.

(** Lines 300-301: [self.components[k]['mu'] = np.array(self.components[k]['mu'])] *)
Definition coerce_mu (comps : mixture d) (k : nat) : mixture d :=
  if dict_get comps k is Some c then
    dict_set comps k (set_mu c (np_array (c_mu c)))
  else comps.

(** [MFA.load(self, file_name)]: the new value of [self.components]. *)
Definition load (file_name : string) (fs : filesystem) : result (mixture d) :=
  match fs (String.append file_name ".pkl") with
  | None => Err FileNotFoundError
  | Some b =>
    bind (pickle_load b) (fun comps =>
      Ok (foldl coerce_mu comps (dict_keys comps)))
  end.

End Persistence.

(** ** Specification-side definitions *)

Section Reference.
Variable d : nat.
Implicit Type c : component d.

(** The covariance of a component, [A A^T + diag(D)]. *)
Definition Sigma c : 'M[R]_d := c_A c *m (c_A c)^T + diag_mx (c_D c).

(** The direct reference for the log-density of a row [x]: form
    [Sigma], invert it and take its determinant. *)
Definition reference_log_likelihood c (x : 'rV[R]_d) : R :=
  let x_c := x - vec_of (c_mu c) in
  - half * ((x_c *m invmx (Sigma c) *m x_c^T) 0 0
            + d%:R * ln (2 * PI) + ln (\det (Sigma c))).

(** The parameters of a component: everything but the cache keys. *)
Definition params c : {l : nat & 'M[R]_(d, l)} * 'rV[R]_d * pyvec d * R :=
  (existT _ (c_l c) (c_A c), c_D c, c_mu c, c_pi c).

(** No cache yet: the key ['c_factor'] is absent. *)
Definition cache_fresh c : Prop := c_c_factor c = None.

(** The cache keys hold what lines 129-144 compute from the current
    ['A'] and ['D']. *)
Definition cache_populated c : Prop :=
  let invD := np_power_m1_col (c_D c) in
  [/\ IPiDP c invD \in unitmx,
      c_inv_sigma1 c = Some (inv_sigma1_of c invD),
      c_inv_sigma2 c = Some (inv_sigma2_of c invD (invmx (IPiDP c invD))) &
      c_c_factor c = Some (c_factor_of c invD)].

Definition cache_valid c : Prop := cache_fresh c \/ cache_populated c.

Definition positive_noise c : Prop := forall j, 0 < c_D c 0 j.

(** The value of one likelihood evaluation of [c] on [X], as a function
    of the parameters alone. *)
Definition component_log_probs n c (X : 'M[R]_(n, d)) : result 'cV[R]_n :=
  let invD := np_power_m1_col (c_D c) in
  bind (np_linalg_inv (IPiDP c invD)) (fun inv_M =>
    let X_c := bsub_row X (vec_of (c_mu c)) in
    Ok (\col_i (- half * (m_d X_c invD (inv_sigma2_of c invD inv_M)
                                (inv_sigma1_of c invD) i 0
                          + c_factor_of c invD)))).

(** The component dict after one evaluation by
    [_get_component_log_probs]. *)
Definition after_evaluation c : component d :=
  if c_c_factor c is None then
    (cache_calculations c (np_power_m1_col (c_D c))).2
  else c.

(** The component dict after line 301 of [load]. *)
Definition with_array_mu c : component d :=
  set_mu c (np_array (c_mu c)).

(** The data-model invariants of a mixture: ids are the contiguous range
    [0..K-1] and every cache is valid. *)
Definition contiguous_ids (self : mixture d) : Prop :=
  perm_eq (dict_keys self) (iota 0 (size self)).

Definition caches_valid (self : mixture d) : Prop :=
  forall k c, dict_get self k = Some c -> cache_valid c.

End Reference.

Section Forms.
Variable F : realFieldType.

Definition quad n (M : 'M[F]_n) (x : 'rV[F]_n) : F := (x *m M *m x^T) 0 0.

Definition posdef n (M : 'M[F]_n) : Prop :=
  forall x : 'rV[F]_n, x != 0 -> 0 < quad M x.

End Forms.

Section MixtureSpec.
Variable d : nat.

(** The weighted log-density column of component [c], tagged with its
    column index [k]: [log(pi) + component log-density]. *)
Definition weighted_column (n : nat) (c : component d) (X : 'M[R]_(n, d))
    (k : nat) : result (nat * 'cV[R]_n) :=
  bind (component_log_probs c X) (fun v =>
    Ok (k, \col_i (np_log (c_pi c) + v i 0))).

(** The same, for the component stored under key [k]. *)
Definition column_of_key (n : nat) (self : mixture d) (X : 'M[R]_(n, d))
    (k : nat) : result (nat * 'cV[R]_n) :=
  if dict_get self k is Some c then weighted_column c X k else Err KeyError.

(** The matrix obtained from [out] by writing every tagged column of
    [rs] (tags distinct) at its tag. *)
Definition merged (n K : nat) (rs : seq (nat * 'cV[R]_n))
    (out : 'M[R]_(n, K)) : 'M[R]_(n, K) :=
  \matrix_(i, j)
    if (j : nat) \in unzip1 rs then
      nth 0 (unzip2 rs) (index (j : nat) (unzip1 rs)) i 0
    else out i j.

End MixtureSpec.

(** ** [MFA._get_components_log_probabilities_debug] *)

Section Debug.
Variable d : nat.

(** The loop of the debug variant: the column of component [k] is the
    value of [_get_component_log_probs], without the log-weight. *)
Definition debug_step (n K : nat) (X : 'M[R]_(n, d))
    (acc : result 'M[R]_(n, K) * mixture d) (kc : nat * component d) :
    result 'M[R]_(n, K) * mixture d :=
  match acc with
  | (Err e, st) => (Err e, st)
  | (Ok out, st) =>
    match _get_component_log_probs st X kc.1 with
    | (Err e, st') => (Err e, st')
    | (Ok v, st') => (set_column out kc.1 v, st')
    end
  end.

(** [MFA._get_components_log_probabilities_debug(self, samples)]: the
    matrix and the new value of [self.components]. *)
Definition _get_components_log_probabilities_debug
    (self : mixture d) (samples : ndarray) :
    result 'M[R]_(batch_rows samples, size self) * mixture d :=
  match _rearrange_input self samples with
  | Err e => (Err e, self)
  | Ok Xa =>
    let X := as_matrix (batch_rows samples) d Xa in
    foldl (debug_step X) (Ok (const_mx 0), self) self
  end.

End Debug.


(** ** Further specification-side definitions *)

Section MixtureState.
Variable d : nat.

(** Two values of [self.components] with the same keys, in the same
    order, and the same ['A'], ['D'], ['mu'], ['pi'] under every key. *)
Definition same_params (st st' : mixture d) : Prop :=
  dict_keys st' = dict_keys st
  /\ forall k, omap (@params d) (dict_get st' k)
               = omap (@params d) (dict_get st k).

(** [pi_k N(x; mu_k, Sigma_k)]: the weighted Gaussian density of a
    component at a point. *)
Definition weighted_density (c : component d) (x : 'rV[R]_d) : R :=
  c_pi c * exp (reference_log_likelihood c x).

(** The density of the mixture at a point, summed over the ids
    [0..K-1]. *)
Definition mixture_density (self : mixture d) (x : 'rV[R]_d) : R :=
  \sum_(0 <= k < size self)
    if dict_get self k is Some c then weighted_density c x else 0.

End MixtureState.

Section EntrySpec.
Variable d : nat.

(** [np.linalg.inv] succeeds on the capacitance matrix of [c]. *)
Definition invertible (c : component d) : bool :=
  IPiDP c (np_power_m1_col (c_D c)) \in unitmx.

Definition all_invertible (self : mixture d) : Prop :=
  forall k c, dict_get self k = Some c -> invertible c.

(** Entry [i] of the vector that one evaluation of [c] on [X] returns
    when the inversion succeeds. *)
Definition log_prob_entry (n : nat) (c : component d) (X : 'M[R]_(n, d))
    (i : 'I_n) : R :=
  let invD := np_power_m1_col (c_D c) in
  - half * (m_d (bsub_row X (vec_of (c_mu c))) invD
              (inv_sigma2_of c invD (invmx (IPiDP c invD)))
              (inv_sigma1_of c invD) i 0
            + c_factor_of c invD).

(** Entry [(i, k)] of the matrix of weighted log-densities. *)
Definition weighted_entry (n : nat) (self : mixture d) (X : 'M[R]_(n, d))
    (i : 'I_n) (k : nat) : R :=
  if dict_get self k is Some c then np_log (c_pi c) + log_prob_entry c X i
  else 0.

(** [self.components] after a likelihood evaluation that returned. *)
Definition evaluated (self : mixture d) : mixture d :=
  [seq (kc.1, after_evaluation kc.2) | kc <- self].

End EntrySpec.

(** ** A component with a negative noise variance

    [A = [[1]]], [D = [-1]]: its capacitance matrix [1 + 1/(-1)] is 0. *)
Definition negative_component : component 1 :=
  @Component 1 1 1%:M (const_mx (- 1)) (NpVec 0) 1 None None None.

(** ** A concrete mixture

    Two one-dimensional components of rank one with [A = 1], [D = 1],
    [mu = 0] and weights one half each; a batch of one point at 0. *)

Definition unit_component (w : R) : component 1 :=
  @Component 1 1 1%:M (const_mx 1) (NpVec 0) w None None None.

Definition two_components : mixture 1 :=
  [:: (0%N, unit_component half); (1%N, unit_component half)].

Definition origin_batch : ndarray := NdArray [:: 1%N; 1%N] [:: 0].

(** Generator draws that are all 0. *)
Definition zero_draws : rng_draws 1 :=
  RngDraws (fun _ => 0) (fun _ => 0) (fun _ => 0) (fun _ => 0) (fun _ => 0).

(** * Properties *)

(** ** Logarithm and exponential in MathComp notation *)

Lemma ln_mul (x y : R) : 0 < x -> 0 < y -> ln (x * y) = ln x + ln y.
Proof. by move=> /RltP hx /RltP hy; exact: ln_mult. Qed.

Lemma exp_gt0 (x : R) : 0 < exp x.
Proof. by apply/RltP; exact: exp_pos. Qed.

Lemma expD (x y : R) : exp (x + y) = exp x * exp y.
Proof. exact: exp_plus. Qed.

Lemma lnK (x : R) : ln (exp x) = x.
Proof. exact: ln_exp. Qed.

Lemma expK (x : R) : 0 < x -> exp (ln x) = x.
Proof. by move=> /RltP hx; exact: exp_ln. Qed.

Lemma ln_prod (I : Type) (s : seq I) (f : I -> R) :
  (forall i, 0 < f i) ->
  0 < \prod_(i <- s) f i /\ ln (\prod_(i <- s) f i) = \sum_(i <- s) ln (f i).
Proof.
move=> f_gt0; elim: s => [|i s [IH1 IH2]].
  by rewrite !big_nil ltr01; split=> //; exact: ln_1.
by rewrite !big_cons mulr_gt0 // ln_mul // IH2.
Qed.

(** ** Linear algebra: determinants of rank updates *)

Section Sylvester.
Variable F : comNzRingType.

(** Weinstein-Aronszajn: [det (1 + A B) = det (1 + B A)]. *)
Lemma det_1_plus_mulC m n (A : 'M[F]_(m, n)) (B : 'M[F]_(n, m)) :
  \det (1%:M + A *m B) = \det (1%:M + B *m A).
Proof.
pose N : 'M[F]_(m + n) := block_mx 1%:M (- A) B 1%:M.
have eq1 : N = block_mx 1%:M 0 B 1%:M *m block_mx 1%:M (- A) 0 (1%:M + B *m A).
  rewrite mulmx_block ?mul1mx ?mul0mx ?mulmx0 ?addr0 ?mulmx1 mulmxN.
  by rewrite addrCA addNr addr0.
have eq2 : N = block_mx (1%:M + A *m B) (- A) 0 1%:M *m block_mx 1%:M 0 B 1%:M.
  rewrite mulmx_block ?mulmx1 ?mul0mx ?mulmx0 ?mul1mx ?add0r ?addr0 mulNmx.
  by rewrite addrK.
have := congr1 determinant eq1; rewrite eq2 !det_mulmx !det_ublock !det_lblock.
by rewrite !det1 !mulr1 !mul1r.
Qed.

End Sylvester.

Section PositiveDefinite.
Variable F : realFieldType.

(** One step of elimination: the Schur complement of a positive
    definite matrix is positive definite. *)
Lemma posdef_schur n (a0 : F) (r : 'rV[F]_n) (c : 'cV[F]_n) (C : 'M[F]_n) :
  posdef (block_mx a0%:M r c C : 'M_(1 + n)) ->
  0 < a0 /\ posdef (C - c *m (a0^-1 *: r)).
Proof.
move=> pdM.
have a0_gt0 : 0 < a0.
  have /pdM : (row_mx 1%:M 0 : 'rV[F]_(1 + n)) != 0.
    apply/eqP => /(congr1 (fun x : 'rV_(1 + n) => lsubmx x)).
    rewrite row_mxKl => /matrixP /(_ 0 0); rewrite !mxE /= => /eqP.
    by rewrite oner_eq0.
  rewrite /quad mul_row_block !mul1mx !mul0mx !addr0.
  rewrite tr_row_mx mul_row_col trmx0 mulmx0 addr0 trmx1 mulmx1.
  by rewrite mxE eqxx mulr1n.
split=> // y y_neq0.
pose x : 'rV[F]_(1 + n) := row_mx (- (a0^-1 *: (y *m c))) y.
have /pdM : x != 0.
  apply: contra_neq y_neq0 => /(congr1 (fun x : 'rV_(1 + n) => rsubmx x)).
  by rewrite row_mxKr linear0.
rewrite /quad /x mul_row_block tr_row_mx mul_row_col.
rewrite mulNmx -scalemxAl mul_mx_scalar scalerA mulVf ?gt_eqF // scale1r.
rewrite addNr mul0mx add0r.
rewrite mulmxBr mulmxDl mulNmx -scalemxAl -!mulmxA -scalemxAr scalemxAl.
by rewrite mulmxBl -scalemxAr scalemxAl addrC -[y *m C *m _]mulmxA mulNmx.
Qed.

Lemma det_schur n (a0 : F) (r : 'rV[F]_n) (c : 'cV[F]_n) (C : 'M[F]_n) :
  a0 != 0 ->
  \det (block_mx a0%:M r c C : 'M_(1 + n))
  = a0 * \det (C - c *m (a0^-1 *: r)).
Proof.
move=> a0_neq0.
pose L : 'M[F]_(1 + n) := block_mx 1%:M 0 (- (a0^-1 *: c)) 1%:M.
have LM : L *m block_mx a0%:M r c C
          = block_mx a0%:M r 0 (C - c *m (a0^-1 *: r)).
  rewrite mulmx_block !mul1mx !mul0mx !addr0.
  congr block_mx.
    by rewrite mulNmx -scalemxAl mul_mx_scalar scalerA mulVf // scale1r addNr.
  by rewrite mulNmx -scalemxAl scalemxAr addrC.
have := congr1 determinant LM.
by rewrite det_mulmx det_lblock det_ublock !det1 !mul1r det_scalar1.
Qed.

(** A positive definite matrix has a positive determinant. *)
Lemma posdef_det_gt0 n (M : 'M[F]_n) : posdef M -> 0 < \det M.
Proof.
elim: n M => [|n IHn] M; first by rewrite det_mx00 ltr01.
rewrite -(submxK (M : 'M_(1 + n))) [ulsubmx _]mx11_scalar.
move=> /posdef_schur [a0_gt0 pdS].
by rewrite det_schur ?gt_eqF // mulr_gt0 //; exact: IHn.
Qed.

Lemma quad_diag n (e y : 'rV[F]_n) :
  (y *m diag_mx e *m y^T) 0 0 = \sum_j e 0 j * (y 0 j) ^+ 2.
Proof.
rewrite mxE; apply: eq_bigr => j _.
by rewrite mul_mx_diag !mxE expr2 mulrAC mulrC mulrA.
Qed.

Lemma quad_1 n (y : 'rV[F]_n) : (y *m y^T) 0 0 = \sum_j (y 0 j) ^+ 2.
Proof. by rewrite mxE; apply: eq_bigr => j _; rewrite !mxE expr2. Qed.

Lemma quad_1_gt0 n (y : 'rV[F]_n) : y != 0 -> 0 < (y *m y^T) 0 0.
Proof.
move=> y_neq0; rewrite quad_1.
have ge0 (j : 'I_n) : true -> 0 <= (y 0 j) ^+ 2 by rewrite sqr_ge0.
rewrite lt0r sumr_ge0 // andbT.
apply: contra_neq y_neq0 => /eqP; rewrite psumr_eq0 // => /allP h.
apply/rowP => j; rewrite mxE; apply/eqP; rewrite -sqrf_eq0.
by apply: (implyP (h j _)); rewrite // mem_index_enum.
Qed.

End PositiveDefinite.

(** ** The Woodbury identity and the matrix determinant lemma for
    [S = A A^T + diag(D)] with [D > 0] *)

Section Woodbury.
Variable F : realFieldType.
Variables (d l : nat) (A : 'M[F]_(d, l)) (D : 'rV[F]_d).
Hypothesis D_gt0 : forall j, 0 < D 0 j.

Let Di : 'rV[F]_d := map_mx GRing.inv D.
Let M : 'M[F]_l := 1%:M + A^T *m diag_mx Di *m A.
Let S : 'M[F]_d := A *m A^T + diag_mx D.

Lemma Di_gt0 j : 0 < Di 0 j.
Proof. by rewrite mxE invr_gt0. Qed.

Lemma capacitance_posdef : posdef M.
Proof.
move=> x x_neq0; rewrite /quad /M mulmxDr mulmx1 mulmxDl mxE.
have -> : x *m (A^T *m diag_mx Di *m A) *m x^T
          = (x *m A^T) *m diag_mx Di *m (x *m A^T)^T.
  by rewrite trmx_mul trmxK !mulmxA.
rewrite quad_diag ltr_wpDr ?quad_1_gt0 // sumr_ge0 // => j _.
by rewrite mulr_ge0 ?sqr_ge0 // ltW // Di_gt0.
Qed.

Lemma capacitance_det_gt0 : 0 < \det M.
Proof. exact/posdef_det_gt0/capacitance_posdef. Qed.

Lemma capacitance_unit : M \in unitmx.
Proof. by rewrite unitmxE unitfE gt_eqF // capacitance_det_gt0. Qed.

Lemma capacitance_sym : M^T = M.
Proof. by rewrite /M linearD /= trmx1 !trmx_mul trmxK tr_diag_mx mulmxA. Qed.

Lemma diag_D_Di : diag_mx D *m diag_mx Di = 1%:M.
Proof.
rewrite mulmx_diag -diag_const_mx; congr diag_mx.
by apply/rowP => j; rewrite !mxE divff // gt_eqF.
Qed.

Lemma woodbury_core (B : 'M[F]_(l, d)) (Mi : 'M[F]_l) :
  (B *m A + 1%:M) *m Mi = 1%:M ->
  (A *m B + 1%:M) *m (A *m Mi *m B) = A *m B.
Proof.
move=> BAMi; rewrite mulmxDl mul1mx !mulmxA -[A *m B *m A]mulmxA -!mulmxDl.
by rewrite -[X in _ + X]mulmx1 -mulmxDr -[A *m _ *m Mi]mulmxA BAMi mulmx1.
Qed.

Lemma woodbury_mul :
  S *m (diag_mx Di - diag_mx Di *m A *m invmx M *m A^T *m diag_mx Di) = 1%:M.
Proof.
have SDi : S *m diag_mx Di = A *m (A^T *m diag_mx Di) + 1%:M.
  by rewrite /S mulmxDl diag_D_Di -mulmxA.
have ME : A^T *m diag_mx Di *m A + 1%:M = M by rewrite /M addrC.
have -> : diag_mx Di *m A *m invmx M *m A^T *m diag_mx Di
          = diag_mx Di *m (A *m invmx M *m (A^T *m diag_mx Di)).
  by rewrite !mulmxA.
rewrite mulmxBr mulmxA SDi woodbury_core ?ME ?mulmxV ?capacitance_unit //.
by rewrite addrAC subrr add0r.
Qed.

Lemma woodbury_inv :
  S \in unitmx /\
  invmx S = diag_mx Di - diag_mx Di *m A *m invmx M *m A^T *m diag_mx Di.
Proof.
have [Su _] := mulmx1_unit woodbury_mul; split=> //.
by rewrite -[RHS]mul1mx -(mulVmx Su) -mulmxA woodbury_mul mulmx1.
Qed.

Lemma det_lemma : \det S = \det M * \prod_j D 0 j.
Proof.
have -> : S = diag_mx D *m (1%:M + (diag_mx Di *m A) *m A^T).
  by rewrite mulmxDr mulmx1 !mulmxA diag_D_Di mul1mx addrC.
rewrite det_mulmx det_diag det_1_plus_mulC mulrC; congr (\det _ * _).
by rewrite /M !mulmxA.
Qed.

Lemma Sigma_det_gt0 : 0 < \det S.
Proof. by rewrite det_lemma mulr_gt0 ?capacitance_det_gt0 // prodr_gt0. Qed.

End Woodbury.

(** ** Dictionaries *)

Section DictLemmas.
Variable V : Type.
Implicit Type m : pydict V.

Lemma dict_get_set m k v k' :
  dict_get (dict_set m k v) k' = if k == k' then Some v else dict_get m k'.
Proof.
elim: m => [|[k0 v0] m IH] /=; first by [].
case: (eqVneq k0 k) => [->|k0k] /=; first by case: eqP.
by rewrite IH; case: (eqVneq k0 k') => // <-; rewrite eq_sym (negbTE k0k).
Qed.

Lemma dict_set_same m k v : dict_get m k = Some v -> dict_set m k v = m.
Proof.
elim: m => [|[k0 v0] m IH] //=.
by case: eqP => [-> [->]|_ /IH ->].
Qed.

Lemma dict_keys_set m k v :
  k \in dict_keys m -> dict_keys (dict_set m k v) = dict_keys m.
Proof.
elim: m => [|[k0 v0] m IH] //=; rewrite inE.
case: (eqVneq k0 k) => [->|k0k] //=.
by move=> /IH ->.
Qed.

Lemma dict_get_in m k v : dict_get m k = Some v -> k \in dict_keys m.
Proof.
elim: m => [|[k0 v0] m IH] //=; rewrite inE.
by case: (eqVneq k0 k) => [_|_ /IH ->]; rewrite ?eqxx ?orbT.
Qed.

Lemma dict_get_notin m k : k \notin dict_keys m -> dict_get m k = None.
Proof.
elim: m => [|[k0 v0] m IH] //=; rewrite inE negb_or eq_sym.
by case/andP=> /negbTE -> /IH.
Qed.

Lemma size_dict_set m k v :
  k \in dict_keys m -> size (dict_set m k v) = size m.
Proof. by move=> /(dict_keys_set v) /(congr1 size); rewrite !size_map. Qed.

End DictLemmas.

Section DictCat.
Variable V : Type.
Implicit Types a b : pydict V.

Lemma dict_get_cat a b k :
  dict_get (a ++ b) k
  = if k \in dict_keys a then dict_get a k else dict_get b k.
Proof.
elim: a => [|[k0 v0] a IH] //=; rewrite inE.
by case: (eqVneq k0 k).
Qed.

Lemma dict_set_cat a b k v :
  k \notin dict_keys a -> dict_set (a ++ b) k v = a ++ dict_set b k v.
Proof.
elim: a => [|[k0 v0] a IH] //=; rewrite inE negb_or eq_sym.
by case/andP=> /negbTE -> /IH ->.
Qed.

Lemma dict_get_some a k : k \in dict_keys a -> exists v, dict_get a k = Some v.
Proof.
elim: a => [|[k0 v0] a IH] //=; rewrite inE.
by case: (eqVneq k0 k) => [_ _|k0k] //; exists v0.
Qed.

End DictCat.

(** ** One likelihood evaluation of a component *)

Section Evaluation.
Variable d : nat.
Implicit Type c : component d.
Implicit Type self : mixture d.

Lemma params_after_evaluation c : params (after_evaluation c) = params c.
Proof.
rewrite /after_evaluation; case: (c_c_factor c) => //.
by rewrite /cache_calculations; case: np_linalg_inv.
Qed.

(** With all three cache keys present, the evaluation reads them and
    writes nothing, whatever they hold. *)
Lemma cached_evaluation n self (X : 'M[R]_(n, d)) k c s1 s2 cf :
  dict_get self k = Some c ->
  c_inv_sigma1 c = Some s1 -> c_inv_sigma2 c = Some s2 ->
  c_c_factor c = Some cf ->
  _get_component_log_probs self X k
  = (Ok (\col_i (- half * (m_d (bsub_row X (vec_of (c_mu c)))
                             (np_power_m1_col (c_D c)) s2 s1 i 0 + cf))),
     self).
Proof.
rewrite /_get_component_log_probs => -> s1E s2E cfE.
by rewrite cfE /= s2E s1E cfE.
Qed.

Lemma get_component_log_probs_valid n self (X : 'M[R]_(n, d)) k c :
  dict_get self k = Some c -> cache_valid c ->
  _get_component_log_probs self X k
  = (component_log_probs c X, dict_set self k (after_evaluation c)).
Proof.
move=> get_k [fresh|[M_unit s1E s2E cfE]]; last first.
  rewrite (cached_evaluation _ get_k s1E s2E cfE) /after_evaluation cfE.
  by rewrite (dict_set_same get_k) /component_log_probs /np_linalg_inv M_unit.
rewrite /_get_component_log_probs get_k /after_evaluation fresh.
rewrite /component_log_probs /cache_calculations.
by case: np_linalg_inv.
Qed.

Lemma after_evaluation_valid c : cache_valid c -> cache_valid (after_evaluation c).
Proof.
rewrite /after_evaluation; case cfE: (c_c_factor c) => [cf|]; first by [].
move=> _; rewrite /cache_calculations /np_linalg_inv.
case: ifP => [M_unit|_]; last by left.
by right; split.
Qed.

Lemma after_evaluation_populated n c (X : 'M[R]_(n, d)) :
  cache_valid c -> is_ok (component_log_probs c X) ->
  cache_populated (after_evaluation c).
Proof.
rewrite /after_evaluation => -[fresh|pop].
  2: by have [_ _ _ cfE] := pop; rewrite cfE.
rewrite fresh /component_log_probs /cache_calculations /np_linalg_inv.
by case: ifP => [M_unit _|//]; split.
Qed.

Lemma component_log_probs_after n c (X : 'M[R]_(n, d)) :
  component_log_probs (after_evaluation c) X = component_log_probs c X.
Proof.
rewrite /after_evaluation; case: (c_c_factor c) => //.
by rewrite /cache_calculations; case: np_linalg_inv.
Qed.

End Evaluation.

(** ** The code's broadcasts as matrix products *)

Section BroadcastLemmas.
Variables m n : nat.

Lemma bmul_colE (M : 'M[R]_(m, n)) (v : 'cV[R]_m) :
  bmul_col M v = diag_mx v^T *m M.
Proof. by apply/matrixP => i j; rewrite mul_diag_mx !mxE mulrC. Qed.

Lemma bmul_rowE (M : 'M[R]_(m, n)) (v : 'rV[R]_n) :
  bmul_row M v = M *m diag_mx v.
Proof. by apply/matrixP => i j; rewrite mul_mx_diag !mxE. Qed.

Lemma row_bsub_row (M : 'M[R]_(m, n)) (v : 'rV[R]_n) i :
  row i (bsub_row M v) = row i M - v.
Proof. by apply/rowP => j; rewrite !mxE. Qed.

End BroadcastLemmas.

Lemma np_power_m1_colE d (D : 'rV[R]_d) :
  (np_power_m1_col D)^T = map_mx GRing.inv D.
Proof. by apply/rowP => j; rewrite !mxE. Qed.

Section LikelihoodLemmas.
Variable d : nat.
Implicit Type c : component d.

Let Di c : 'rV[R]_d := map_mx GRing.inv (c_D c).

Lemma IPiDP_E c :
  IPiDP c (np_power_m1_col (c_D c))
  = 1%:M + (c_A c)^T *m diag_mx (Di c) *m c_A c.
Proof. by rewrite /IPiDP bmul_colE np_power_m1_colE mulmxA. Qed.

Lemma inv_sigma1_E c :
  inv_sigma1_of c (np_power_m1_col (c_D c)) = (c_A c)^T *m diag_mx (Di c).
Proof. by rewrite /inv_sigma1_of bmul_rowE np_power_m1_colE. Qed.

Lemma inv_sigma2_E c (inv_M : 'M[R]_(c_l c)) :
  inv_sigma2_of c (np_power_m1_col (c_D c)) inv_M
  = diag_mx (Di c) *m c_A c *m inv_M^T.
Proof.
rewrite /inv_sigma2_of bmul_rowE np_power_m1_colE !trmx_mul trmxK tr_diag_mx.
by rewrite mulmxA.
Qed.

Lemma m_d_quad n l (X_c : 'M[R]_(n, d)) (invD : 'cV[R]_d)
    (s2 : 'M[R]_(d, l)) (s1 : 'M[R]_(l, d)) i :
  m_d X_c invD s2 s1 i 0
  = quad (diag_mx invD^T - s2 *m s1)^T (row i X_c).
Proof.
have -> : m_d X_c invD s2 s1
          = np_sum_axis1 (emul X_c (X_c *m (diag_mx invD^T - s2 *m s1))).
  by rewrite /m_d mulmxBr bmul_rowE mulmxA.
rewrite /quad mxE -[_ *m _^T *m _]mulmxA -trmx_mul [RHS]mxE.
apply: eq_bigr => j _.
by rewrite [LHS]mxE [row _ _ _ _]mxE [in RHS]mxE -row_mul [in RHS]mxE.
Qed.

Lemma Sigma_sym c : (Sigma c)^T = Sigma c.
Proof. by rewrite /Sigma linearD /= trmx_mul trmxK tr_diag_mx. Qed.

Section PositiveNoise.
Variable c : component d.
Hypothesis D_gt0 : positive_noise c.

Let invD := np_power_m1_col (c_D c).

Lemma IPiDP_unit : IPiDP c invD \in unitmx.
Proof. by rewrite IPiDP_E; exact: capacitance_unit. Qed.

Lemma IPiDP_det_gt0 : 0 < \det (IPiDP c invD).
Proof. by rewrite IPiDP_E; exact: capacitance_det_gt0. Qed.

Lemma Sigma_unit : Sigma c \in unitmx.
Proof. by have [] := woodbury_inv (c_A c) D_gt0. Qed.

Lemma Sigma_gt0 : 0 < \det (Sigma c).
Proof. exact: Sigma_det_gt0. Qed.

(** The two cached factors apply [Sigma^-1]. *)
Lemma woodbury_cache :
  diag_mx invD^T
  - inv_sigma2_of c invD (invmx (IPiDP c invD)) *m inv_sigma1_of c invD
  = invmx (Sigma c).
Proof.
have [_ ->] := woodbury_inv (c_A c) D_gt0.
rewrite inv_sigma1_E inv_sigma2_E np_power_m1_colE trmx_inv IPiDP_E.
by rewrite capacitance_sym !mulmxA.
Qed.

(** The cached constant is [d log(2 pi) + log det Sigma]. *)
Lemma c_factor_E :
  c_factor_of c invD = d%:R * ln (2 * PI) + ln (\det (Sigma c)).
Proof.
rewrite /c_factor_of /np_linalg_det /np_log /Sigma det_lemma //.
have [prod_gt0 ln_prodE] := ln_prod (index_enum 'I_d) D_gt0.
congr (_ + _); rewrite -IPiDP_E ln_mul ?ln_prodE //.
exact: IPiDP_det_gt0.
Qed.

Lemma component_log_probs_reference n (X : 'M[R]_(n, d)) :
  component_log_probs c X
  = Ok (\col_i reference_log_likelihood c (row i X)).
Proof.
rewrite /component_log_probs /np_linalg_inv -/invD IPiDP_unit /=.
congr Ok; apply/colP => i; rewrite [LHS]mxE [RHS]mxE /reference_log_likelihood.
rewrite m_d_quad woodbury_cache c_factor_E trmx_inv Sigma_sym /quad.
by rewrite row_bsub_row addrA.
Qed.

End PositiveNoise.

End LikelihoodLemmas.

Section EvaluationClaims.
Variable d : nat.
Implicit Type c : component d.
Implicit Type self : mixture d.

Lemma after_evaluation_idem c :
  cache_populated c -> after_evaluation c = c.
Proof. by rewrite /after_evaluation => -[_ _ _ ->]. Qed.

(** C1.  For a component with strictly positive noise variances (and a
    cache that is absent or was computed from its current parameters),
    [Sigma = A A^T + diag(D)] is invertible with a positive determinant,
    and [_get_component_log_probs] returns, for every row [x] of the
    batch, [-0.5 ((x - mu) Sigma^-1 (x - mu)^T + d log(2 pi) + log det
    Sigma)]: the Woodbury and determinant-lemma formulation equals the
    direct reference. *)
Theorem component_log_likelihood_woodbury n self (X : 'M[R]_(n, d)) k c :
  dict_get self k = Some c -> cache_valid c -> positive_noise c ->
  [/\ Sigma c \in unitmx, 0 < \det (Sigma c) &
      (_get_component_log_probs self X k).1
      = Ok (\col_i reference_log_likelihood c (row i X))].
Proof.
move=> get_k valid D_gt0; split; first exact: Sigma_unit.
  exact: Sigma_gt0.
by rewrite (get_component_log_probs_valid X get_k valid) /=
           component_log_probs_reference.
Qed.

(** C8.  The first likelihood evaluation of component [k] changes
    [self.components] only at key [k], and there only the cache keys:
    ['A'], ['D'], ['mu'] and ['pi'] are as before.  For positive noise
    variances it returns, and it has then written the three cache keys,
    which hold the values computed from ['A'] and ['D'].  Whenever it
    returns, the three cache keys are present afterwards, and every
    later evaluation leaves the state as it is, computes its result from
    the cached values, and on the same input returns the result of the
    first evaluation. *)
Theorem first_evaluation_writes_cache_only n self (X : 'M[R]_(n, d)) k c :
  dict_get self k = Some c -> cache_fresh c ->
  let r1 := (_get_component_log_probs self X k).1 in
  let self1 := (_get_component_log_probs self X k).2 in
  [/\ dict_keys self1 = dict_keys self,
      forall k', k' != k -> dict_get self1 k' = dict_get self k',
      exists2 c1, dict_get self1 k = Some c1 & params c1 = params c,
      positive_noise c ->
      exists v c1,
        [/\ r1 = Ok v, dict_get self1 k = Some c1 & cache_populated c1]
    & forall v, r1 = Ok v ->
      exists c1 s1 s2 cf,
        [/\ dict_get self1 k = Some c1,
            [/\ c_inv_sigma1 c1 = Some s1, c_inv_sigma2 c1 = Some s2
              & c_c_factor c1 = Some cf],
            _get_component_log_probs self1 X k = (Ok v, self1)
          & forall n' (X' : 'M[R]_(n', d)),
              _get_component_log_probs self1 X' k
              = (Ok (\col_i (- half *
                       (m_d (bsub_row X' (vec_of (c_mu c)))
                            (np_power_m1_col (c_D c)) s2 s1 i 0 + cf))),
                 self1)]].
Proof.
move=> get_k fresh.
have valid : cache_valid c by left.
rewrite (get_component_log_probs_valid X get_k valid) /=.
set c1 := after_evaluation c; set self1 := dict_set self k c1.
have get1 : dict_get self1 k = Some c1 by rewrite dict_get_set eqxx.
have par1 : params c1 = params c by exact: params_after_evaluation.
split.
- by rewrite dict_keys_set // (dict_get_in get_k).
- by move=> k' k'k; rewrite dict_get_set eq_sym (negbTE k'k).
- by exists c1.
- move=> D_gt0; rewrite component_log_probs_reference //.
  eexists; exists c1; split=> //.
  apply: (@after_evaluation_populated _ _ _ X) => //.
  by rewrite component_log_probs_reference.
move=> v r1E.
have pop1 : cache_populated c1.
  by apply: (@after_evaluation_populated _ _ _ X) => //; rewrite r1E.
have [_ s1E s2E cfE] := pop1.
exists c1; do 3![eexists]; split; first exact: get1.
- by split; [exact: s1E | exact: s2E | exact: cfE].
- rewrite (get_component_log_probs_valid X get1 (or_intror pop1)).
  rewrite component_log_probs_after r1E after_evaluation_idem //.
  by rewrite (dict_set_same get1).
move=> n' X'; rewrite (cached_evaluation X' get1 s1E s2E cfE).
by case: par1 => _ _ -> -> _.
Qed.

End EvaluationClaims.

Lemma unit_component_positive w : positive_noise (unit_component w).
Proof. by move=> j; rewrite mxE ltr01. Qed.

Lemma component_log_likelihood_woodbury_witness :
  [/\ dict_get two_components 0 = Some (unit_component half),
      cache_valid (unit_component half) & positive_noise (unit_component half)]
  /\ [/\ Sigma (unit_component half) \in unitmx,
         0 < \det (Sigma (unit_component half)) &
         (_get_component_log_probs two_components (0 : 'M[R]_(1, 1)) 0).1
         = Ok (\col_i reference_log_likelihood (unit_component half)
                        (row i (0 : 'M[R]_(1, 1))))].
Proof.
have get0 : dict_get two_components 0 = Some (unit_component half) by [].
have valid : cache_valid (unit_component half) by left.
split; first by split=> //; exact: unit_component_positive.
exact: (component_log_likelihood_woodbury _ get0 valid
          (unit_component_positive half)).
Defined.

Lemma first_evaluation_writes_cache_only_witness :
  [/\ dict_get two_components 0 = Some (unit_component half),
      cache_fresh (unit_component half)
    & positive_noise (unit_component half)]
  /\ exists v c1,
       [/\ (_get_component_log_probs two_components
              (0 : 'M[R]_(1, 1)) 0).1 = Ok v,
           dict_get (_get_component_log_probs two_components
                       (0 : 'M[R]_(1, 1)) 0).2 0 = Some c1
         & cache_populated c1].
Proof.
have get0 : dict_get two_components 0 = Some (unit_component half) by [].
have fresh : cache_fresh (unit_component half) by [].
have D_gt0 := unit_component_positive half.
split; first by split.
have [_ _ _ returns _] :=
  first_evaluation_writes_cache_only (0 : 'M[R]_(1, 1)) get0 fresh.
exact: returns D_gt0.
Defined.

(** ** The pool and the merge *)

Section PoolMap.
Variables (S : eqType) (T : Type) (f : S -> result T).

Lemma pool_map_ok (h : S -> T) (s : seq S) :
  {in s, forall x, f x = Ok (h x)} -> pool_map f s = Ok (map h s).
Proof.
elim: s => [|x s IH] //= fh.
rewrite fh ?mem_head //= IH //= => y ys.
by rewrite fh // inE ys orbT.
Qed.

Lemma pool_map_err (e0 : exn) (s : seq S) :
  {in s, forall x, ~~ is_ok (f x) -> f x = Err e0} ->
  ~~ all (fun x => is_ok (f x)) s -> pool_map f s = Err e0.
Proof.
elim: s => [|x s IH] //= fe.
case fx: (f x) => [r|e] /=.
  move=> not_all; rewrite IH //= => y ys; apply: fe.
  by rewrite inE ys orbT.
by move=> _; move: (fe x (mem_head _ _)); rewrite fx /= => /(_ isT) [->].
Qed.

End PoolMap.

Section Merge.
Variables n K : nat.
Implicit Type rs : seq (nat * 'cV[R]_n).
Implicit Type out : 'M[R]_(n, K).

Lemma merge_results_err rs e :
  foldl (fun acc r => bind acc (fun out : 'M[R]_(n, K) =>
                                  set_column out r.1 r.2))
        (Err e) rs = Err e.
Proof. by elim: rs. Qed.

Lemma merge_results_cons r rs out :
  merge_results (r :: rs) out
  = bind (set_column out r.1 r.2) (merge_results rs).
Proof.
rewrite /merge_results /=; case: set_column => //= e.
exact: merge_results_err.
Qed.

Lemma merge_resultsE rs out :
  uniq (unzip1 rs) -> all (fun t => (t < K)%N) (unzip1 rs) ->
  merge_results rs out = Ok (merged rs out).
Proof.
elim: rs out => [|[t v] rs IH] out /=.
  move=> _ _; congr Ok; apply/matrixP => i j.
  by rewrite mxE.
case/andP=> t_notin uniq_rs /andP[tK all_rs].
rewrite merge_results_cons /set_column tK /= IH //.
congr Ok; apply/matrixP => i j; rewrite !mxE /= inE.
case: (eqVneq (j : nat) t) => [jt|jt] //=.
by rewrite jt (negbTE t_notin).
Qed.

Lemma lookup_mem rs k v :
  uniq (unzip1 rs) -> (k, v) \in rs ->
  nth 0 (unzip2 rs) (index k (unzip1 rs)) = v.
Proof.
elim: rs => [|[t w] rs IH] //= /andP[t_notin uniq_rs].
rewrite inE => /orP[/eqP[-> ->]|kv_in]; first by rewrite eqxx.
case: (eqVneq t k) => [tk|_]; last exact: IH.
by move: t_notin; rewrite tk (map_f fst kv_in).
Qed.

Lemma mem_lookup rs k :
  k \in unzip1 rs ->
  (k, nth 0 (unzip2 rs) (index k (unzip1 rs))) \in rs.
Proof.
elim: rs => [|[t w] rs IH] //=; rewrite !inE.
case: (eqVneq t k) => [->|tk] /=; first by rewrite eqxx.
by move=> /IH ->; rewrite orbT.
Qed.

Lemma merged_perm rs rs' out :
  uniq (unzip1 rs) -> perm_eq rs rs' -> merged rs out = merged rs' out.
Proof.
move=> uniq_rs perm_rs.
have perm_tags : perm_eq (unzip1 rs) (unzip1 rs') by exact: perm_map.
apply/matrixP => i j; rewrite !mxE (perm_mem perm_tags).
case: ifP => // j_in; congr (_ i 0).
rewrite (@lookup_mem rs j (nth 0 (unzip2 rs') (index (j : nat) (unzip1 rs')))) //.
by rewrite (perm_mem perm_rs); exact: mem_lookup.
Qed.

(** The merge writes every result at its tagged column, whatever the
    order in which the results are listed. *)
Lemma merge_results_perm rs rs' out :
  uniq (unzip1 rs) -> perm_eq rs rs' ->
  merge_results rs out = merge_results rs' out.
Proof.
move=> uniq_rs perm_rs.
have perm_tags : perm_eq (unzip1 rs) (unzip1 rs') by exact: perm_map.
have uniq_rs' : uniq (unzip1 rs') by rewrite -(perm_uniq perm_tags).
case all_lt: (all (fun t => (t < K)%N) (unzip1 rs)).
  rewrite !merge_resultsE -?(perm_all _ perm_tags) //.
  by rewrite (merged_perm out uniq_rs perm_rs).
have err rs0 : ~~ all (fun t => (t < K)%N) (unzip1 rs0) ->
    forall out0, merge_results rs0 out0 = Err IndexError.
  elim: rs0 => [|[t v] rs0 IH] //=; rewrite negb_and => bad out0.
  rewrite merge_results_cons /set_column /=.
  by case: ltnP bad => //= _ bad; exact: IH.
by rewrite !err // -?(perm_all _ perm_tags) all_lt.
Qed.

End Merge.

(** ** The serial and the parallel evaluation *)

Section SerialParallel.
Variables d n K : nat.
Variable X : 'M[R]_(n, d).
Implicit Types (self pre post : mixture d) (out : 'M[R]_(n, K)).

Lemma serial_step_err e st post :
  (foldl (serial_step X) (Err e : result 'M[R]_(n, K), st) post).1 = Err e.
Proof. by elim: post st. Qed.

Lemma serial_fold post pre pre' out :
  dict_keys pre' = dict_keys pre ->
  uniq (dict_keys (pre ++ post)) -> caches_valid (pre ++ post) ->
  all (fun k => (k < K)%N) (dict_keys post) ->
  (foldl (serial_step X) (Ok out, pre' ++ post) post).1
  = bind (pool_map (column_of_key (pre ++ post) X) (dict_keys post))
         (fun rs => merge_results rs out).
Proof.
elim: post pre pre' out => [|[k c] post IH] pre pre' out //=.
move=> keysE uniq_keys valid /andP[kK all_lt].
have k_notin : k \notin dict_keys pre.
  move: uniq_keys; rewrite /dict_keys /unzip1 map_cat cat_uniq /=.
  by case/and3P=> _ /norP[].
have get_self : dict_get (pre ++ (k, c) :: post) k = Some c.
  by rewrite dict_get_cat (negbTE k_notin) /= eqxx.
have get_st : dict_get (pre' ++ (k, c) :: post) k = Some c.
  by rewrite dict_get_cat keysE (negbTE k_notin) /= eqxx.
have valid_c : cache_valid c by exact: valid get_self.
rewrite (get_component_log_probs_valid X get_st valid_c).
rewrite /column_of_key get_self /weighted_column.
case: (component_log_probs c X) => [v|e] /=; last exact: serial_step_err.
have keysE' : dict_keys (rcons pre' (k, after_evaluation c))
               = dict_keys (rcons pre (k, c)).
  by move: keysE; rewrite /dict_keys /unzip1 !map_rcons => ->.
rewrite /set_column kK dict_set_cat ?keysE //= eqxx -cat_rcons.
rewrite (IH (rcons pre (k, c))) ?cat_rcons //.
rewrite -/(weighted_column _ _ _) -/(column_of_key _ _).
case: pool_map => //= rs.
by rewrite merge_results_cons /set_column /= kK.
Qed.

Lemma task_is_weighted_column c k :
  _get_component_log_probs_task (Task k c X) = weighted_column c X k.
Proof.
rewrite /_get_component_log_probs_task /weighted_column /component_log_probs /=.
case: np_linalg_inv => //= inv_M; congr (Ok (_, _)).
by apply/colP => i; rewrite !mxE mulNr.
Qed.

Lemma parallel_tasks self ids :
  {subset ids <= dict_keys self} ->
  bind (component_tasks self X ids)
       (pool_map (@_get_component_log_probs_task d n))
  = pool_map (column_of_key self X) ids.
Proof.
move=> sub.
suff [ts [-> <-]] : exists ts, component_tasks self X ids = Ok ts /\
    pool_map (@_get_component_log_probs_task d n) ts
    = pool_map (column_of_key self X) ids by [].
elim: ids sub => [|i ids IH] sub; first by exists [::].
have /IH [ts [tsE poolE]] : {subset ids <= dict_keys self}.
  by move=> j j_in; apply: sub; rewrite inE j_in orbT.
have [c get_i] := dict_get_some (sub i (mem_head _ _)).
exists (Task i c X :: ts); split; first by rewrite /= get_i tsE.
by rewrite /= poolE /column_of_key get_i task_is_weighted_column.
Qed.

End SerialParallel.

Lemma bindA (S T U : Type) (r : result S) (f : S -> result T)
    (g : T -> result U) :
  bind (bind r f) g = bind r (fun x => bind (f x) g).
Proof. by case: r. Qed.

Lemma index_iota0 k n : (k < n)%N -> index k (iota 0 n) = k.
Proof.
move=> kn; have := @index_uniq _ 0%N k (iota 0 n).
by rewrite size_iota nth_iota // add0n; apply=> //; exact: iota_uniq.
Qed.

Section PoolMergePerm.
Variables n K : nat.
Variable g : nat -> result (nat * 'cV[R]_n).
Variable e0 : exn.

(** The column that [g] computes for key [k]. *)
Let h (k : nat) : nat * 'cV[R]_n := if g k is Ok r then r else (k, 0).

Lemma pool_map_tagged ks :
  {in ks, forall k, g k = Err e0 \/ exists v, g k = Ok (k, v)} ->
  if all (fun k => is_ok (g k)) ks then
    pool_map g ks = Ok (map h ks) /\ unzip1 (map h ks) = ks
  else pool_map g ks = Err e0.
Proof.
move=> g_cases; case: ifP => [all_ok|/negbT not_all]; last first.
  apply: pool_map_err not_all => k k_in.
  by case: (g_cases k k_in) => [->|[v ->]].
split.
  apply: pool_map_ok => k k_in; rewrite /h.
  by move/allP: all_ok => /(_ k k_in); case: (g k).
rewrite /unzip1 -map_comp -[RHS]map_id; apply/eq_in_map => k k_in /=.
by rewrite /h; case: (g_cases k k_in) => [->|[v ->]].
Qed.

Lemma pool_merge_perm ks ks' (out : 'M[R]_(n, K)) :
  {in ks, forall k, g k = Err e0 \/ exists v, g k = Ok (k, v)} ->
  uniq ks -> perm_eq ks ks' ->
  bind (pool_map g ks) (fun rs => merge_results rs out)
  = bind (pool_map g ks') (fun rs => merge_results rs out).
Proof.
move=> g_cases uniq_ks perm_ks.
have g_cases' : {in ks', forall k, g k = Err e0 \/ exists v, g k = Ok (k, v)}.
  by move=> k; rewrite -(perm_mem perm_ks); exact: g_cases.
have := pool_map_tagged g_cases; have := pool_map_tagged g_cases'.
rewrite -(perm_all _ perm_ks); case: ifP => _; last by move=> -> ->.
move=> [-> tags'] [-> tags] /=.
by apply: merge_results_perm; rewrite ?tags //; exact: perm_map.
Qed.

End PoolMergePerm.

Section ParallelClaim.
Variable d : nat.
Implicit Type self : mixture d.

Lemma column_of_key_cases n self (X : 'M[R]_(n, d)) k :
  k \in dict_keys self ->
  column_of_key self X k = Err LinAlgError
  \/ exists v, column_of_key self X k = Ok (k, v).
Proof.
move=> /dict_get_some[c get_k].
rewrite /column_of_key get_k /weighted_column /component_log_probs.
rewrite /np_linalg_inv; case: ifP => _ /=; last by left.
by right; eexists.
Qed.

Lemma contiguous_uniq self : contiguous_ids self -> uniq (dict_keys self).
Proof. by move=> /perm_uniq ->; exact: iota_uniq. Qed.

Lemma contiguous_lt self k :
  contiguous_ids self -> (k \in dict_keys self) = (k < size self)%N.
Proof. by move=> /perm_mem ->; rewrite mem_iota add0n. Qed.

Lemma serial_result self samples :
  contiguous_ids self -> caches_valid self ->
  (_get_components_log_probabilities self samples).1
  = bind (_rearrange_input self samples) (fun Xa =>
      bind (pool_map (column_of_key self
                        (as_matrix (batch_rows samples) d Xa))
                     (dict_keys self))
           (fun rs => merge_results rs (const_mx 0))).
Proof.
move=> contig valid; rewrite /_get_components_log_probabilities.
case: _rearrange_input => //= Xa.
rewrite -[X in foldl _ (_, X) _]cat0s.
rewrite (@serial_fold _ _ _ _ self [::] [::]) ?cat0s //.
  exact: contiguous_uniq.
by apply/allP => k; rewrite contiguous_lt.
Qed.

Lemma parallel_result self samples :
  contiguous_ids self ->
  _get_components_log_probabilities_multithreaded self samples
  = bind (_rearrange_input self samples) (fun Xa =>
      bind (pool_map (column_of_key self
                        (as_matrix (batch_rows samples) d Xa))
                     (iota 0 (size self)))
           (fun rs => merge_results rs (const_mx 0))).
Proof.
move=> contig; rewrite /_get_components_log_probabilities_multithreaded.
case: _rearrange_input => //= Xa.
rewrite -bindA parallel_tasks // => k.
by rewrite contiguous_lt // mem_iota add0n.
Qed.

(** C2.  For a mixture whose ids are [0..K-1] and whose caches are
    valid, the parallel path returns what the serial path returns (the
    same matrix, or the same exception); in the matrix, column [k] holds
    [log(pi_k)] plus the log-density of component [k]; and the merge
    writes each result at its tagged column, so that any order of the
    results gives the same matrix. *)
Theorem parallel_matches_serial self samples :
  contiguous_ids self -> caches_valid self ->
  [/\ _get_components_log_probabilities_multithreaded self samples
      = (_get_components_log_probabilities self samples).1,
      forall Xa M,
        _rearrange_input self samples = Ok Xa ->
        _get_components_log_probabilities_multithreaded self samples = Ok M ->
        forall k c (j : 'I_(size self)),
          dict_get self k = Some c -> j = k :> nat ->
          exists2 v,
            component_log_probs c (as_matrix (batch_rows samples) d Xa) = Ok v
            & forall i, M i j = np_log (c_pi c) + v i 0
    & forall n K (rs rs' : seq (nat * 'cV[R]_n)) (out : 'M[R]_(n, K)),
        uniq (unzip1 rs) -> perm_eq rs rs' ->
        merge_results rs out = merge_results rs' out].
Proof.
move=> contig valid; split; last exact: merge_results_perm.
  rewrite serial_result // parallel_result //.
  case: _rearrange_input => //= Xa.
  apply/esym/(@pool_merge_perm _ _ _ LinAlgError) => //.
  - by move=> k; exact: column_of_key_cases.
  - exact: contiguous_uniq.
move=> Xa M XaE; rewrite parallel_result // XaE /=.
set X := as_matrix _ _ _; set g := column_of_key self X.
have g_cases : {in iota 0 (size self), forall k,
    g k = Err LinAlgError \/ exists v, g k = Ok (k, v)}.
  move=> k; rewrite mem_iota add0n -(contiguous_lt _ contig).
  exact: column_of_key_cases.
have := pool_map_tagged g_cases; case: ifP => [all_ok [-> tags]|_ -> //] /=.
have all_lt : all (fun t => (t < size self)%N) (iota 0 (size self)).
  by apply/allP => k; rewrite mem_iota add0n.
rewrite merge_resultsE ?tags ?iota_uniq // => -[<-] k c j get_k jk.
have k_in : k \in iota 0 (size self) by rewrite mem_iota add0n /= -jk ltn_ord.
have := allP all_ok k k_in; rewrite /g /column_of_key get_k /weighted_column.
case cE: (component_log_probs c X) => [v|] //= _; exists v => // i.
have kK : (k < size self)%N by rewrite -jk.
rewrite mxE tags jk k_in index_iota0 // /unzip2 -map_comp.
rewrite (nth_map 0%N) ?size_iota // nth_iota // add0n /=.
by rewrite /g /column_of_key get_k /weighted_column cE /= mxE.
Qed.

End ParallelClaim.

(** ** log-sum-exp and responsibilities *)

Lemma sum_exp_gt0 K (f : 'I_K.+1 -> R) : 0 < \sum_j exp (f j).
Proof.
rewrite big_ord_recl ltr_pwDl ?exp_gt0 // sumr_ge0 // => j _.
exact/ltW/exp_gt0.
Qed.

Lemma log_sum_exp_shift K (f : 'I_K.+1 -> R) (m : R) :
  m + ln (\sum_j exp (f j - m)) = ln (\sum_j exp (f j)).
Proof.
have -> : \sum_j exp (f j - m) = (\sum_j exp (f j)) * exp (- m).
  by rewrite big_distrl; apply: eq_bigr => j _; rewrite expD.
by rewrite ln_mul ?sum_exp_gt0 ?exp_gt0 // lnK addrCA subrr addr0.
Qed.

Lemma log_sum_exp_succ n K (ns : 'M[R]_(n, K.+1)) :
  _log_sum_exp ns = Ok (\col_i np_log (\sum_j np_exp (ns i j))).
Proof.
rewrite /_log_sum_exp /=; congr Ok; apply/colP => i.
rewrite [LHS]mxE [X in X + _]mxE [X in _ + X]mxE [X in np_log X]mxE [RHS]mxE.
rewrite /np_log /np_exp -(log_sum_exp_shift _ (\big[Num.max/ns i ord0]_j ns i j)).
congr (_ + ln _); apply: eq_bigr => j _.
by rewrite !mxE.
Qed.

(** C3.  On an [n x K] matrix with [K >= 1], [_log_sum_exp] (row-wise
    max plus the log of the sum of the exponentials of the row minus
    that max) returns the naive per-row [log (sum_k exp (value))]; on a
    matrix without columns, where the naive form would be [log 0], it
    raises [ValueError]. *)
Theorem log_sum_exp_is_naive :
  (forall n K (ns : 'M[R]_(n, K.+1)),
     _log_sum_exp ns = Ok (\col_i np_log (\sum_j np_exp (ns i j))))
  /\ (forall n (ns : 'M[R]_(n, 0)), _log_sum_exp ns = Err ValueError).
Proof. by split=> [n K ns|n ns] //; exact: log_sum_exp_succ. Qed.

Lemma responsibilities_row_sum n K (P : 'M[R]_(n, K)) (lse : 'cV[R]_n) i :
  _log_sum_exp P = Ok lse -> \sum_j np_exp_mx (bsub_col P lse) i j = 1.
Proof.
case: K P => [|K] P; first by [].
rewrite log_sum_exp_succ => -[<-].
have -> : \sum_j np_exp_mx (bsub_col P (\col_i0 np_log (\sum_j0 np_exp (P i0 j0)))) i j
          = (\sum_j exp (P i j)) * exp (- ln (\sum_j exp (P i j))).
  by rewrite big_distrl; apply: eq_bigr => j _; rewrite !mxE /np_exp /np_log expD.
by rewrite -{1}(expK (sum_exp_gt0 (P i))) -expD subrr; exact: exp_0.
Qed.

Section Responsibilities.
Variable d : nat.
Implicit Type self : mixture d.

Lemma serial_total self samples :
  contiguous_ids self -> caches_valid self ->
  (forall k c, dict_get self k = Some c -> positive_noise c) ->
  is_ok (_rearrange_input self samples) ->
  is_ok (_get_components_log_probabilities self samples).1.
Proof.
move=> contig valid D_gt0; rewrite serial_result //.
case: _rearrange_input => //= Xa _.
set X := as_matrix _ _ _; set g := column_of_key self X.
have g_ok : {in dict_keys self, forall k,
    g k = Err LinAlgError \/ exists v, g k = Ok (k, v)}.
  by move=> k; exact: column_of_key_cases.
have all_ok : all (fun k => is_ok (g k)) (dict_keys self).
  apply/allP => k /dict_get_some[c get_k].
  rewrite /g /column_of_key get_k /weighted_column.
  by rewrite component_log_probs_reference //; exact: D_gt0 get_k.
have := pool_map_tagged g_ok; rewrite all_ok => -[-> tags] /=.
rewrite merge_resultsE ?tags //; first exact: contiguous_uniq.
by apply/allP => k; rewrite contiguous_lt.
Qed.

Lemma log_sum_exp_total n self (P : 'M[R]_(n, size self)) samples :
  is_ok (_rearrange_input self samples) -> is_ok (_log_sum_exp P).
Proof.
by case: self P.
Qed.

(** C4.  [get_log_responsibilities] is the matrix of
    [_get_components_log_probabilities] minus its row-broadcast
    [_log_sum_exp]; whenever [get_responsibilities] returns, every row
    of its result sums to 1; and it does return for an accepted input
    and a mixture with ids [0..K-1], valid caches and positive noise
    variances. *)
Theorem responsibilities_rows_sum_to_one self samples :
  [/\ (get_log_responsibilities self samples).1
      = bind (_get_components_log_probabilities self samples).1
          (fun P => bind (_log_sum_exp P) (fun lse => Ok (bsub_col P lse))),
      forall Rm, (get_responsibilities self samples).1 = Ok Rm ->
        forall i, \sum_j Rm i j = 1
    & contiguous_ids self -> caches_valid self ->
      (forall k c, dict_get self k = Some c -> positive_noise c) ->
      is_ok (_rearrange_input self samples) ->
      is_ok (get_responsibilities self samples).1].
Proof.
rewrite /get_responsibilities /get_log_responsibilities.
case serE: (_get_components_log_probabilities self samples) => [r self'] /=.
split=> //.
  case: r {serE} => //= P; case lseE: (_log_sum_exp P) => [lse|] //= Rm [<-] i.
  exact: responsibilities_row_sum.
move=> contig valid D_gt0 accepted.
have := serial_total contig valid D_gt0 accepted; rewrite serE /=.
case: r {serE} => //= P _.
by have := log_sum_exp_total P accepted; case: _log_sum_exp.
Qed.

End Responsibilities.

Lemma two_components_contiguous : contiguous_ids two_components.
Proof. by []. Qed.

Lemma two_components_valid : caches_valid two_components.
Proof. by move=> [|[|k]] c //= [<-]; left. Qed.

Lemma two_components_positive k c :
  dict_get two_components k = Some c -> positive_noise c.
Proof. by case: k => [|[|k]] //= [<-]; exact: unit_component_positive. Qed.

Lemma origin_batch_accepted : is_ok (_rearrange_input two_components origin_batch).
Proof. by []. Qed.

Lemma parallel_matches_serial_witness :
  [/\ contiguous_ids two_components, caches_valid two_components
    & _get_components_log_probabilities_multithreaded two_components
        origin_batch
      = (_get_components_log_probabilities two_components origin_batch).1].
Proof.
split; [exact: two_components_contiguous | exact: two_components_valid |].
by have [] := parallel_matches_serial origin_batch
                two_components_contiguous two_components_valid.
Defined.

Lemma responsibilities_rows_sum_to_one_witness :
  [/\ contiguous_ids two_components, caches_valid two_components,
      forall k c, dict_get two_components k = Some c -> positive_noise c
    & is_ok (_rearrange_input two_components origin_batch)]
  /\ exists2 Rm,
       (get_responsibilities two_components origin_batch).1 = Ok Rm
       & forall i, \sum_j Rm i j = 1.
Proof.
split.
  split; [exact: two_components_contiguous | exact: two_components_valid
         | exact: two_components_positive | exact: origin_batch_accepted].
have [_ row_sums total] :=
  responsibilities_rows_sum_to_one two_components origin_batch.
have := total two_components_contiguous two_components_valid
          two_components_positive origin_batch_accepted.
case RmE: (get_responsibilities two_components origin_batch).1 => [Rm|] // _.
by exists Rm => //; exact: row_sums.
Defined.

(** ** The weight vector of [draw_samples] *)

Lemma eps_weights_gt0 : 0 < eps_weights.
Proof. by rewrite /eps_weights invr_gt0 exprn_gt0 // ltr0n. Qed.

Lemma eps_weights_lt1 : eps_weights < 1.
Proof.
rewrite /eps_weights invf_lt1 ?exprn_gt0 ?ltr0n // exprn_egt1 //.
by rewrite (ltr_nat _ 1 10).
Qed.

Lemma py_max_foldl (xs : seq R) (m0 : R) :
  let m := foldl (fun m y => if m < y then y else m) m0 xs in
  [/\ m0 <= m, {in xs, forall y, y <= m} & m \in m0 :: xs].
Proof.
elim: xs m0 => [|x xs IH] m0 /=; first by rewrite lexx mem_head.
case: ltP => [m0x|xm0].
  have [le1 le2 in3] := IH x; split.
  - exact: le_trans (ltW m0x) le1.
  - by move=> y; rewrite inE => /orP[/eqP ->|/le2].
  - by rewrite inE in3 orbT.
have [le1 le2 in3] := IH m0; split=> //.
  by move=> y; rewrite inE => /orP[/eqP ->|/le2] //; exact: le_trans xm0 le1.
by move: in3; rewrite !inE => /orP[->|->] //; rewrite !orbT.
Qed.

(** [pi.index(max(pi))] is the first position holding the largest
    weight. *)
Lemma py_max_index (pi : seq R) :
  pi != [::] ->
  exists2 mx, py_max pi = Ok mx &
    let i := index mx pi in
    [/\ (i < size pi)%N, nth 0 pi i = mx,
        forall j, (j < size pi)%N -> nth 0 pi j <= nth 0 pi i
      & forall j, (j < i)%N -> nth 0 pi j < nth 0 pi i].
Proof.
case: pi => [|x xs] // _.
have [le1 le2 in3] := py_max_foldl xs x.
set mx := foldl _ x xs in le1 le2 in3 *.
exists mx => //; lazy zeta.
have lt_i : (index mx (x :: xs) < size (x :: xs))%N by rewrite index_mem.
have nth_i : nth 0 (x :: xs) (index mx (x :: xs)) = mx by rewrite nth_index.
have le_all y : y \in x :: xs -> y <= mx.
  by rewrite inE => /orP[/eqP ->|/le2].
split=> // j j_lt; rewrite nth_i.
  by apply: le_all; rewrite mem_nth.
have j_size : (j < size (x :: xs))%N by exact: ltn_trans j_lt lt_i.
rewrite lt_neqAle le_all ?mem_nth // andbT.
by apply: contraL j_lt => /eqP <-; rewrite -leqNgt index_nth.
Qed.

Section WeightCorrection.
Variable d : nat.
Variable self : mixture d.

Let pi := [seq c_pi c | c <- dict_values self].
Let sp := py_sum pi.

Lemma draw_samples_pi_fail :
  eps_weights <= `|sp - 1| ->
  draw_samples_pi self = Err InvalidDistributionError.
Proof.
move=> dev; rewrite /draw_samples_pi -/pi -/sp ltNge dev /=.
case: eqP => // sp1; move: dev.
by rewrite sp1 subrr normr0 leNgt eps_weights_gt0.
Qed.

Lemma draw_samples_pi_exact : sp = 1 -> draw_samples_pi self = Ok pi.
Proof. by move=> sp1; rewrite /draw_samples_pi -/pi -/sp sp1 eqxx. Qed.

Lemma draw_samples_pi_correct :
  sp != 1 -> `|sp - 1| < eps_weights ->
  exists i pi',
    [/\ draw_samples_pi self = Ok pi',
        (i < size pi)%N /\ size pi' = size pi,
        (forall j, (j < size pi)%N -> nth 0 pi j <= nth 0 pi i)
        /\ (forall j, (j < i)%N -> nth 0 pi j < nth 0 pi i),
        nth 0 pi' i = nth 0 pi i - (sp - 1)
      & forall j, j != i -> nth 0 pi' j = nth 0 pi j].
Proof.
move=> sp_neq1 dev.
have pi_neq0 : pi != [::].
  apply: contraTneq dev => pi0; rewrite /sp pi0 /py_sum /= sub0r normrN normr1.
  by rewrite -leNgt ltW // eps_weights_lt1.
have [mx mxE [lt_i nth_i le_all lt_before]] := py_max_index pi_neq0.
exists (index mx pi), (set_nth 0 pi (index mx pi) (nth 0 pi (index mx pi) - (sp - 1))).
split=> //.
- by rewrite /draw_samples_pi -/pi -/sp (negbTE sp_neq1) dev mxE.
- split=> //; rewrite size_set_nth; apply/maxn_idPr.
  exact: lt_i.
- by rewrite nth_set_nth /= eqxx.
- by move=> j j_neq; rewrite nth_set_nth /= (negbTE j_neq).
Qed.

End WeightCorrection.









(** ** Shape normalisation *)

Section RearrangeInput.
Variable d : nat.
Variable self : mixture d.
Hypothesis nonempty : (0 < size self)%N.

Lemma rearrange_batch samples n :
  shape samples = [:: n; d] -> _rearrange_input self samples = Ok samples.
Proof.
by case: self nonempty => // kc m _; rewrite /_rearrange_input => -> /=; rewrite eqxx.
Qed.

Lemma rearrange_batch_mismatch samples n m :
  shape samples = [:: n; m] -> m != d ->
  _rearrange_input self samples = Err DimensionMismatchError.
Proof.
case: self nonempty => // kc m0 _; rewrite /_rearrange_input => -> /=.
by move=> /negbTE ->.
Qed.

Lemma rearrange_other_rank samples :
  size (shape samples) != 2 ->
  _rearrange_input self samples
  = if np_size samples == d then Ok (NdArray [:: 1%N; d] (data samples))
    else Err (AssertionError point_has_size_d).
Proof.
by case: self nonempty => // kc m _; rewrite /_rearrange_input => /negbTE ->.
Qed.

Lemma rearrange_point samples :
  shape samples = [:: d] ->
  _rearrange_input self samples = Ok (NdArray [:: 1%N; d] (data samples)).
Proof.
move=> shp; rewrite rearrange_other_rank ?shp //.
by rewrite /np_size shp big_cons big_nil muln1 eqxx.
Qed.

End RearrangeInput.

(** C6, as the code has it.  For a non-empty mixture of dimension [d]:
    a 2-dimensional [n x d] batch is returned as it is; a 2-dimensional
    input with another column count fails with the assertion error that
    stands for [DimensionMismatchError]; an input of any other rank is
    accepted exactly when its total number of elements is [d], and is
    then reshaped to a [1 x d] batch (in particular a 1-dimensional
    vector of length [d]). *)
Theorem rearrange_input_shapes d (self : mixture d) samples :
  (0 < size self)%N ->
  [/\ forall n, shape samples = [:: n; d] ->
        _rearrange_input self samples = Ok samples,
      forall n m, shape samples = [:: n; m] -> m != d ->
        _rearrange_input self samples = Err DimensionMismatchError,
      shape samples = [:: d] ->
        _rearrange_input self samples
        = Ok (NdArray [:: 1%N; d] (data samples))
    & size (shape samples) != 2 ->
        _rearrange_input self samples
        = if np_size samples == d
          then Ok (NdArray [:: 1%N; d] (data samples))
          else Err (AssertionError point_has_size_d)].
Proof.
move=> nonempty; split.
- by move=> n; exact: rearrange_batch.
- by move=> n m; exact: rearrange_batch_mismatch.
- exact: rearrange_point.
- exact: rearrange_other_rank.
Qed.

Lemma rearrange_input_shapes_witness :
  (0 < size two_components)%N /\
  _rearrange_input two_components origin_batch = Ok origin_batch.
Proof.
split; first by [].
have [batch _ _ _] :=
  @rearrange_input_shapes 1 two_components origin_batch isT.
exact: (batch 1%N).
Defined.

(** C6 as stated fails: a 3-dimensional input of shape [(1, 1, 1)] is
    neither a 2-dimensional batch nor a 1-dimensional vector, and for a
    mixture of dimension 1 it is accepted and reshaped to [(1, 1)]. *)
Lemma rearrange_input_rank3_counterexample :
  let samples := NdArray [:: 1%N; 1%N; 1%N] [:: 0] in
  size (shape samples) = 3 /\
  _rearrange_input two_components samples = Ok (NdArray [:: 1%N; 1%N] [:: 0]).
Proof.
split=> //.
by rewrite /_rearrange_input /= /np_size /= !big_cons big_nil.
Qed.

(** ** Sampling from a component *)

(** C7, as the code has it.  [_draw_from_component] with [add_noise]
    checks nothing about [D]: for a component whose mean is an array it
    returns normally, every entry of a column whose noise variance is
    negative is [nan], and the other columns hold
    [z_l A^T + mu + z_d sqrt(D)]. *)
Theorem draw_from_component_noise d n (c : component d) mu
    (z_l : 'M[R]_(n, c_l c)) (z_d : 'M[R]_(n, d)) :
  c_mu c = NpVec mu ->
  exists2 M, _draw_from_component c true z_l z_d = Ok M &
    forall i j,
      M i j = if c_D c 0 j < 0 then NaN
              else Finite ((z_l *m (c_A c)^T) i j + mu 0 j
                           + z_d i j * sqrt (c_D c 0 j)).
Proof.
move=> muE; rewrite /_draw_from_component muE; eexists; first by [].
by move=> i j; rewrite !mxE /np_sqrt; case: ifP.
Qed.

Lemma draw_from_component_noise_witness :
  c_mu (unit_component 1) = NpVec 0 /\
  exists M, _draw_from_component (num_samples := 1) (unit_component 1) true 0 0 = Ok M.
Proof.
split; first by [].
have [M -> _] := @draw_from_component_noise 1 1 (unit_component 1) 0 0 0 erefl.
by exists M.
Defined.

(** C7 as stated fails: with [D = [-1]] and noise enabled the call
    raises nothing and returns [nan]. *)
Lemma draw_negative_variance_counterexample :
  let c := @Component 1 1 1%:M (const_mx (-1)) (NpVec 0) 1 None None None in
  [/\ c_D c 0 0 < 0,
      is_ok (_draw_from_component (num_samples := 1) c true 0 0)
    & forall M, _draw_from_component (num_samples := 1) c true 0 0 = Ok M ->
                M 0 0 = NaN].
Proof.
have neg : (const_mx (-1) : 'rV[R]_1) 0 0 < 0 by rewrite mxE oppr_lt0 ltr01.
split=> //= M [<-].
by rewrite mxE /np_sqrt neg.
Qed.

(** ** Persistence *)

Section CoerceMu.
Variable d : nat.
Implicit Type c : component d.
Implicit Type comps : mixture d.

Lemma with_array_mu_idem c : with_array_mu (with_array_mu c) = with_array_mu c.
Proof. by []. Qed.

Lemma with_array_mu_id c : is_ndarray (c_mu c) -> with_array_mu c = c.
Proof. by case: c => l A D [t|r] w s1 s2 cf. Qed.

Lemma with_array_mu_params c :
  [/\ c_A (with_array_mu c) = c_A c, c_D (with_array_mu c) = c_D c,
      c_pi (with_array_mu c) = c_pi c,
      vec_of (c_mu (with_array_mu c)) = vec_of (c_mu c)
    & is_ndarray (c_mu (with_array_mu c))].
Proof. by []. Qed.

Lemma dict_get_coerce_mu comps k0 k :
  dict_get (coerce_mu comps k0) k
  = if k0 == k then omap (@with_array_mu d) (dict_get comps k)
    else dict_get comps k.
Proof.
rewrite /coerce_mu; case get0: (dict_get comps k0) => [c|].
  by rewrite dict_get_set; case: eqP => // <-; rewrite get0.
by case: eqP => // <-; rewrite get0.
Qed.

Lemma dict_keys_coerce_mu comps k0 :
  dict_keys (coerce_mu comps k0) = dict_keys comps.
Proof.
rewrite /coerce_mu; case get0: (dict_get comps k0) => [c|] //.
by rewrite dict_keys_set // (dict_get_in get0).
Qed.

Lemma dict_get_foldl_coerce ks comps k :
  dict_get (foldl (@coerce_mu d) comps ks) k
  = if k \in ks then omap (@with_array_mu d) (dict_get comps k)
    else dict_get comps k.
Proof.
elim: ks comps => [|k0 ks IH] comps //=.
rewrite IH dict_get_coerce_mu inE.
case: (eqVneq k0 k) => [_|k0k] //=.
by case: (dict_get comps k) => [c|]; case: ifP.
Qed.

Lemma dict_keys_foldl_coerce ks comps :
  dict_keys (foldl (@coerce_mu d) comps ks) = dict_keys comps.
Proof.
by elim: ks comps => [|k0 ks IH] comps //=; rewrite IH dict_keys_coerce_mu.
Qed.

End CoerceMu.

Section PersistenceClaims.
Variable d : nat.
Variable blob : Type.
Variable pickle_dump : mixture d -> blob.
Variable pickle_load : blob -> result (mixture d).
Hypothesis pickle_roundtrip : forall m, pickle_load (pickle_dump m) = Ok m.

(** C9.  Provided [pickle.load] returns what [pickle.dump] was given:
    loading what [save] wrote returns a mapping with the same keys in
    which every component is the saved one with ['mu'] passed through
    [np.array], so that ['A'], ['D'], ['pi'] and the numbers of ['mu']
    are the saved ones, and a component whose ['mu'] was an array is
    reproduced as it was; and whatever mapping a file holds, after
    [load] every ['mu'] is an array. *)
Theorem save_load_roundtrip (self : mixture d) (file_name : string)
    (fs : filesystem blob) :
  [/\ exists2 self',
        load pickle_load file_name (save pickle_dump self file_name fs)
        = Ok self'
        & dict_keys self' = dict_keys self
          /\ forall k, dict_get self' k
                       = omap (@with_array_mu d) (dict_get self k),
      forall c : component d,
        [/\ c_A (with_array_mu c) = c_A c, c_D (with_array_mu c) = c_D c,
            c_pi (with_array_mu c) = c_pi c,
            vec_of (c_mu (with_array_mu c)) = vec_of (c_mu c)
          & is_ndarray (c_mu c) -> with_array_mu c = c]
    & forall name fs' m,
        load pickle_load name fs' = Ok m ->
        forall k c, dict_get m k = Some c -> is_ndarray (c_mu c)].
Proof.
split.
- rewrite /load /save String.eqb_refl pickle_roundtrip /=.
  eexists; first by [].
  split; first exact: dict_keys_foldl_coerce.
  move=> k; rewrite dict_get_foldl_coerce; case: ifP => // /negbT k_notin.
  by rewrite dict_get_notin.
- move=> c; have [AE DE piE muE _] := with_array_mu_params c.
  by split=> //; exact: with_array_mu_id.
move=> name fs' m; rewrite /load; case: (fs' _) => [b|] //.
case: (pickle_load b) => [comps|] //= [<-] k c.
rewrite dict_get_foldl_coerce; case: ifP => [_|/negbT k_notin].
  by case: (dict_get comps k) => [c0|] //= [<-].
by rewrite dict_get_notin.
Qed.

End PersistenceClaims.

Lemma save_load_roundtrip_witness :
  (forall m : mixture 1, Ok (id m) = Ok m) /\
  exists2 self',
    load (@Ok (mixture 1)) "model"
      (save id two_components "model" (fun _ => None)) = Ok self'
    & dict_keys self' = dict_keys two_components.
Proof.
split; first by [].
have [[self' loadE [keysE _]] _ _] :=
  @save_load_roundtrip 1 (mixture 1) id (@Ok _) (fun m => erefl)
    two_components "model" (fun _ => None).
by exists self'.
Defined.

(** ** Random parameters *)

Section RandomizeClaims.
Variables (K dim : nat).
Variables (low_rank_scale noise_variance mu_range : R).
Variable rnd : rng_draws dim.

Let pi := randomize_pi K rnd.

(** The component that iteration [i] stores when [isotropic_noise] is
    off. *)
Let new_component (i : nat) : component dim :=
  @Component dim (minn max_l dim)
    (map_mx (fun x => 0 + low_rank_scale * x) (z_A rnd i))
    (\row_j np_random_uniform (noise_variance / 10) noise_variance
              (u_D rnd i 0 j))
    (NpVec (\row_j np_random_uniform (- mu_range) mu_range (u_mu rnd i 0 j)))
    (nth 0 pi i) None None None.

Lemma dict_set_new (V : Type) (m : pydict V) k v :
  k \notin dict_keys m -> dict_set m k v = rcons m (k, v).
Proof.
elim: m => [|[k0 v0] m IH] //=; rewrite inE negb_or eq_sym.
by case/andP=> /negbTE -> /IH ->.
Qed.

(** A negative [low_rank_scale] makes [np.random.normal] raise in the
    first iteration. *)
Lemma randomize_params_negative_scale :
  low_rank_scale < 0 ->
  randomize_params K low_rank_scale noise_variance mu_range false rnd
  = (if (0 < K)%N then Err ValueError else Ok tt, [::]).
Proof.
move=> scale_lt0; rewrite /randomize_params.
case: K => [|K'] //=; rewrite /randomize_component /np_random_normal.
by rewrite scale_lt0 /=; elim: (iota 1 K').
Qed.

Hypothesis scale_ge0 : 0 <= low_rank_scale.

Lemma randomize_params_loop a n (m0 : mixture dim) :
  {in dict_keys m0, forall k, (k < a)%N} ->
  foldl (fun acc i =>
           match acc with
           | (Err e, comps) => (Err e, comps)
           | (Ok _, comps) =>
             match randomize_component K low_rank_scale noise_variance
                     mu_range false rnd i with
             | Err e => (Err e, comps)
             | Ok c => (Ok tt, dict_set comps i c)
             end
           end) (Ok tt, m0) (iota a n)
  = (Ok tt, m0 ++ [seq (i, new_component i) | i <- iota a n]).
Proof.
set step := (X in foldl X).
have stepE m i : step (Ok tt, m) i = (Ok tt, dict_set m i (new_component i)).
  by rewrite /step /randomize_component /np_random_normal ltNge scale_ge0.
clearbody step.
elim: n a m0 => [|n IH] a m0 keys_lt /=; first by rewrite cats0.
have a_notin : a \notin dict_keys m0.
  by apply/negP => /keys_lt; rewrite ltnn.
rewrite stepE dict_set_new // IH -?cats1 -?catA //.
move=> k; rewrite /dict_keys /unzip1 map_cat mem_cat /= inE.
by case/orP=> [/keys_lt /ltnW|/eqP ->].
Qed.

Lemma randomize_paramsE :
  randomize_params K low_rank_scale noise_variance mu_range false rnd
  = (Ok tt, [seq (i, new_component i) | i <- iota 0 K]).
Proof. by rewrite /randomize_params randomize_params_loop. Qed.

Lemma dict_get_mkseq i :
  dict_get [seq (i, new_component i) | i <- iota 0 K] i
  = if (i < K)%N then Some (new_component i) else None.
Proof.
have gen a n : dict_get [seq (i, new_component i) | i <- iota a n] i
    = if (a <= i < a + n)%N then Some (new_component i) else None.
  elim: n a => [|n IH] a /=.
    by rewrite addn0; case: ifP => // /andP[/leq_ltn_trans h /h]; rewrite ltnn.
  case: (eqVneq a i) => [->|ai]; first by rewrite leqnn addnS ltnS leq_addr.
  by rewrite IH addSnnS ltn_neqAle ai.
by rewrite gen add0n.
Qed.

(** The mixture of [randomize_params] satisfies the invariants that the
    evaluation paths rely on. *)
Lemma randomize_params_wellformed :
  let comps :=
    (randomize_params K low_rank_scale noise_variance mu_range false rnd).2 in
  [/\ size comps = K, contiguous_ids comps & caches_valid comps].
Proof.
rewrite randomize_paramsE /=; split; first by rewrite size_map size_iota.
  rewrite /contiguous_ids /dict_keys /unzip1 -map_comp map_id_in //.
  by rewrite size_map size_iota.
by move=> k c; rewrite dict_get_mkseq; case: ifP => // _ [<-]; left.
Qed.

Hypothesis K_gt0 : (0 < K)%N.
Hypothesis u_pi_unit : forall i, unit_interval (u_pi rnd i).

Let pi1 := [seq x ^+ 2 | x <- [seq np_random_uniform 5^-1 1 (u_pi rnd i)
                                 | i <- iota 0 K]].

Lemma pi1_gt0 x : x \in pi1 -> 0 < x.
Proof.
rewrite /pi1 -map_comp => /mapP[i _ ->] /=.
have /andP[u_ge0 _] := u_pi_unit i.
rewrite exprn_gt0 // /np_random_uniform ltr_pwDl ?invr_gt0 ?ltr0n //.
by rewrite mulr_ge0 // subr_ge0 invf_le1 ?ltr0n // (ler_nat _ 1 5).
Qed.

Lemma sum_pi1_gt0 : 0 < \sum_(x <- pi1) x.
Proof.
have : pi1 != [::] by rewrite /pi1 -size_eq0 !size_map size_iota -lt0n.
case: pi1 pi1_gt0 => [|x xs] // gt0 _.
rewrite big_cons ltr_pwDl ?gt0 ?mem_head // big_seq sumr_ge0 // => y y_in.
by rewrite ltW // gt0 // inE y_in orbT.
Qed.

Lemma randomize_pi_gt0 i : (i < K)%N -> 0 < nth 0 pi i.
Proof.
move=> iK; rewrite /pi /randomize_pi -/pi1.
have i_lt : (i < size pi1)%N by rewrite /pi1 !size_map size_iota.
rewrite (nth_map 0) // divr_gt0 ?sum_pi1_gt0 // pi1_gt0 //.
exact: mem_nth.
Qed.

Lemma randomize_pi_sum : \sum_(x <- pi) x = 1.
Proof.
rewrite /pi /randomize_pi -/pi1 big_map -mulr_suml divff //.
by rewrite gt_eqF // sum_pi1_gt0.
Qed.

Lemma size_randomize_pi : size pi = K.
Proof. by rewrite /pi /randomize_pi !size_map size_iota. Qed.

Hypothesis noise_variance_gt0 : 0 < noise_variance.
Hypothesis u_D_unit : forall i j, unit_interval (u_D rnd i 0 j).

Lemma new_component_positive i : positive_noise (new_component i).
Proof.
move=> j; rewrite /new_component /= mxE /np_random_uniform.
have /andP[u_ge0 _] := u_D_unit i j.
rewrite ltr_pwDl ?divr_gt0 ?ltr0n // mulr_ge0 // subr_ge0.
by rewrite ler_pdivrMr ?ltr0n // ler_peMr ?(ler_nat _ 1 10) // ltW.
Qed.

(** C10, as the code has it.  For [K >= 1], a non-negative
    [low_rank_scale] (numpy's [normal] raises [ValueError] on a negative
    one), a positive [noise_variance], [isotropic_noise] off and
    generator draws in the half-open unit interval, [randomize_params]
    returns normally and
    leaves a mixture whose ids are exactly [0..K-1] in order; every
    component has a mean and noise variances of length [dim] and a
    [dim x min(8, dim)] factor (by typing, with [c_l = min(8, dim)]), an
    array as mean, strictly positive noise variances, a strictly
    positive weight and no cache; and the weights sum to 1. *)
Theorem randomize_params_invariants :
  exists2 comps,
    randomize_params K low_rank_scale noise_variance mu_range false rnd
    = (Ok tt, comps)
    & [/\ dict_keys comps = iota 0 K,
          forall k c, dict_get comps k = Some c ->
            [/\ c_l c = minn 8 dim, is_ndarray (c_mu c), positive_noise c,
                0 < c_pi c & cache_fresh c]
        & \sum_(c <- dict_values comps) c_pi c = 1].
Proof.
exists [seq (i, new_component i) | i <- iota 0 K]; first exact: randomize_paramsE.
split.
- by rewrite /dict_keys /unzip1 -map_comp map_id_in.
- move=> k c; rewrite dict_get_mkseq; case: ifP => // kK [<-].
  split=> //; first exact: new_component_positive.
  exact: randomize_pi_gt0.
rewrite /dict_values /unzip2 -map_comp big_map /= -randomize_pi_sum.
by rewrite [RHS](big_nth 0) size_randomize_pi /index_iota subn0.
Qed.

End RandomizeClaims.

Lemma zero_draws_unit :
  (forall i, unit_interval (u_pi zero_draws i))
  /\ (forall i j, unit_interval (u_D zero_draws i 0 j)).
Proof. by split=> [i|i j]; rewrite /unit_interval /= ?mxE lexx ltr01. Qed.

Lemma randomize_params_invariants_witness :
  [/\ 0 <= (1 : R), (0 < 1)%N, forall i, unit_interval (u_pi zero_draws i),
      0 < (1 : R) & forall i j, unit_interval (u_D zero_draws i 0 j)]
  /\ exists2 comps,
       randomize_params 1 1 1 1 false zero_draws = (Ok tt, comps)
       & dict_keys comps = iota 0 1.
Proof.
have [pi_unit D_unit] := zero_draws_unit.
split.
  split; [exact: ler01 | by [] | exact: pi_unit | exact: ltr01
         | exact: D_unit].
have [comps compsE [keysE _ _]] :=
  @randomize_params_invariants 1 1 1 1 1 zero_draws ler01 isT pi_unit ltr01
    D_unit.
by exists comps.
Defined.

(** C10 as stated fails when [noise_variance] is not positive: with
    [K = 1], [dim = 1], [low_rank_scale = 1], [noise_variance = 0] and
    draws in the unit interval, the call returns and the noise variance
    of the component is 0. *)
Lemma randomize_params_zero_variance_counterexample :
  [/\ forall i, unit_interval (u_pi zero_draws i),
      forall i j, unit_interval (u_D zero_draws i 0 j)
    & exists2 c,
        randomize_params 1 1 0 1 false zero_draws = (Ok tt, [:: (0%N, c)])
        & c_D c 0 0 = 0].
Proof.
have [pi_unit D_unit] := zero_draws_unit; split=> //.
eexists; first by rewrite randomize_paramsE ?ler01.
by rewrite /= mxE /np_random_uniform mul0r subrr mul0r addr0.
Qed.


(** * Further properties of the code *)

(** ** The likelihood entry points never touch the parameters *)

Section Frame.
Variable d : nat.
Implicit Types (self st : mixture d) (c : component d).

Lemma same_params_refl st : same_params st st.
Proof. by []. Qed.

Lemma same_params_trans st1 st2 st3 :
  same_params st1 st2 -> same_params st2 st3 -> same_params st1 st3.
Proof.
move=> [keys12 par12] [keys23 par23]; split; first by rewrite keys23.
by move=> k; rewrite par23.
Qed.

Lemma same_params_set st k c c' :
  dict_get st k = Some c -> params c' = params c ->
  same_params st (dict_set st k c').
Proof.
move=> get_k parE; split; first by rewrite dict_keys_set // (dict_get_in get_k).
by move=> k'; rewrite dict_get_set; case: eqP => // <-; rewrite get_k /= parE.
Qed.

Lemma get_component_log_probs_state n self (X : 'M[R]_(n, d)) k :
  (_get_component_log_probs self X k).2
  = if dict_get self k is Some c then
      if c_c_factor c is None then
        dict_set self k (cache_calculations c (np_power_m1_col (c_D c))).2
      else self
    else self.
Proof.
rewrite /_get_component_log_probs.
case: (dict_get self k) => [c|] //.
case cfE: (c_c_factor c) => [cf|].
  by case: (c_inv_sigma2 c) => [s2|]; case: (c_inv_sigma1 c) => [s1|] //=;
     rewrite cfE.
rewrite /cache_calculations.
by case: (np_linalg_inv (IPiDP c _)).
Qed.

Lemma get_component_log_probs_frame n self (X : 'M[R]_(n, d)) k :
  same_params self (_get_component_log_probs self X k).2.
Proof.
rewrite get_component_log_probs_state.
case get_k: (dict_get self k) => [c|] //.
case: (c_c_factor c) => [cf|] //.
apply: same_params_set get_k _; rewrite /cache_calculations.
by case: np_linalg_inv.
Qed.

Lemma serial_fold_frame n K (X : 'M[R]_(n, d)) post
    (acc : result 'M[R]_(n, K) * mixture d) :
  same_params acc.2 (foldl (serial_step X) acc post).2.
Proof.
elim: post acc => [|kc post IH] [r st] //=.
apply: same_params_trans (IH _); case: r => [out|e] //=.
have := get_component_log_probs_frame st X kc.1.
by case: _get_component_log_probs => [[v|e] st'].
Qed.

Lemma serial_frame self samples :
  same_params self (_get_components_log_probabilities self samples).2.
Proof.
rewrite /_get_components_log_probabilities.
case: _rearrange_input => [Xa|e] //=.
exact: (@serial_fold_frame _ _ _ _ (Ok _, self)).
Qed.

(** X1.  None of the likelihood entry points changes the key set of
    [self.components] or the ['A'], ['D'], ['mu'], ['pi'] stored under a
    key, whatever the mixture, its caches and the input, and whether the
    call returns or raises. *)
Theorem likelihood_entry_points_frame self samples :
  same_params self (_get_components_log_probabilities self samples).2
  /\
  [/\ same_params self (get_log_probabilities self samples).2,
      same_params self (get_log_likelihood self samples).2,
      same_params self (get_probabilities self samples).2,
      same_params self (get_log_responsibilities self samples).2
    & same_params self (get_responsibilities self samples).2].
Proof.
have := serial_frame self samples.
rewrite /get_log_likelihood /get_probabilities /get_log_probabilities.
rewrite /get_responsibilities /get_log_responsibilities.
by case: _get_components_log_probabilities => [r st].
Qed.

End Frame.

(** ** The state after a likelihood evaluation *)

Section StateAfter.
Variable d : nat.
Implicit Types (self st pre post : mixture d) (c : component d).

Lemma after_evaluation_twice c :
  after_evaluation (after_evaluation c) = after_evaluation c.
Proof.
rewrite /after_evaluation; case cfE: (c_c_factor c) => [cf|]; first by rewrite cfE.
rewrite /cache_calculations /np_linalg_inv.
case: ifP => [M_unit|M_sing] //=.
by rewrite cfE /cache_calculations /np_linalg_inv /= M_sing.
Qed.

Lemma component_log_probsE n c (X : 'M[R]_(n, d)) :
  component_log_probs c X
  = if IPiDP c (np_power_m1_col (c_D c)) \in unitmx
    then Ok (\col_i log_prob_entry c X i) else Err LinAlgError.
Proof. by rewrite /component_log_probs /np_linalg_inv; case: ifP. Qed.

Lemma log_prob_entry_after n c (X : 'M[R]_(n, d)) i :
  log_prob_entry (after_evaluation c) X i = log_prob_entry c X i.
Proof.
rewrite /after_evaluation; case: (c_c_factor c) => //.
by rewrite /cache_calculations; case: np_linalg_inv.
Qed.

Lemma dict_get_evaluated self k :
  dict_get (evaluated self) k = omap (@after_evaluation d) (dict_get self k).
Proof. by elim: self => [|[k0 c0] self IH] //=; case: eqP. Qed.

Lemma dict_keys_evaluated self : dict_keys (evaluated self) = dict_keys self.
Proof. by rewrite /evaluated /dict_keys /unzip1 -map_comp. Qed.

Lemma size_evaluated self : size (evaluated self) = size self.
Proof. by rewrite size_map. Qed.

Lemma weighted_entry_evaluated n self (X : 'M[R]_(n, d)) i k :
  weighted_entry (evaluated self) X i k = weighted_entry self X i k.
Proof.
rewrite /weighted_entry dict_get_evaluated.
case: (dict_get self k) => [c|] //=.
by rewrite log_prob_entry_after (_ : c_pi (after_evaluation c) = c_pi c) //;
   have [] := params_after_evaluation c.
Qed.

Lemma contiguous_evaluated self :
  contiguous_ids self -> contiguous_ids (evaluated self).
Proof. by rewrite /contiguous_ids dict_keys_evaluated size_evaluated. Qed.

Lemma caches_valid_evaluated self :
  caches_valid self -> caches_valid (evaluated self).
Proof.
move=> valid k c'; rewrite dict_get_evaluated.
case get_k: (dict_get self k) => [c|] //= [<-].
exact: after_evaluation_valid (valid _ _ get_k).
Qed.

Lemma evaluated_twice self : evaluated (evaluated self) = evaluated self.
Proof.
rewrite /evaluated -map_comp; apply: eq_map => -[k c] /=.
by rewrite after_evaluation_twice.
Qed.

Lemma rearrange_evaluated self samples :
  _rearrange_input (evaluated self) samples = _rearrange_input self samples.
Proof. by case: self. Qed.

Section Fold.
Variables n K : nat.
Variable X : 'M[R]_(n, d).

Lemma serial_fold_state post pre pre' (out : 'M[R]_(n, K)) :
  dict_keys pre' = dict_keys pre ->
  uniq (dict_keys (pre ++ post)) -> caches_valid (pre ++ post) ->
  is_ok (foldl (serial_step X) (Ok out, pre' ++ post) post).1 ->
  (foldl (serial_step X) (Ok out, pre' ++ post) post).2
  = pre' ++ evaluated post.
Proof.
elim: post pre pre' out => [|[k c] post IH] pre pre' out //=.
move=> keysE uniq_keys valid.
have k_notin : k \notin dict_keys pre.
  move: uniq_keys; rewrite /dict_keys /unzip1 map_cat cat_uniq /=.
  by case/and3P=> _ /norP[].
have get_self : dict_get (pre ++ (k, c) :: post) k = Some c.
  by rewrite dict_get_cat (negbTE k_notin) /= eqxx.
have get_st : dict_get (pre' ++ (k, c) :: post) k = Some c.
  by rewrite dict_get_cat keysE (negbTE k_notin) /= eqxx.
have valid_c : cache_valid c by exact: valid get_self.
rewrite (get_component_log_probs_valid X get_st valid_c).
case: (component_log_probs c X) => [v|e] /=; last by rewrite serial_step_err.
rewrite /set_column; case: ifP => _; last by rewrite serial_step_err.
have keysE' : dict_keys (rcons pre' (k, after_evaluation c))
               = dict_keys (rcons pre (k, c)).
  by move: keysE; rewrite /dict_keys /unzip1 !map_rcons => ->.
rewrite dict_set_cat ?keysE //= eqxx -cat_rcons => ok.
rewrite (IH (rcons pre (k, c)) _ _ keysE') //; first by rewrite cat_rcons.
- by rewrite cat_rcons.
- by rewrite cat_rcons.
Qed.

End Fold.

Lemma serial_state self samples :
  contiguous_ids self -> caches_valid self ->
  is_ok (_get_components_log_probabilities self samples).1 ->
  (_get_components_log_probabilities self samples).2 = evaluated self.
Proof.
move=> contig valid; rewrite /_get_components_log_probabilities.
case: _rearrange_input => //= Xa.
rewrite -[X in foldl _ (_, X) _]cat0s => ok.
rewrite (@serial_fold_state _ _ _ self [::] [::]) ?cat0s //.
exact: contiguous_uniq.
Qed.

Lemma column_of_keyE n self (X : 'M[R]_(n, d)) k c :
  dict_get self k = Some c ->
  column_of_key self X k
  = if invertible c then Ok (k, \col_i weighted_entry self X i k)
    else Err LinAlgError.
Proof.
move=> get_k; rewrite /column_of_key get_k /weighted_column.
rewrite component_log_probsE /invertible; case: ifP => //= _.
by congr (Ok (_, _)); apply/colP => i; rewrite !mxE /weighted_entry get_k.
Qed.

(** The matrix of weighted log-densities, entry by entry. *)
Lemma serial_matrix self samples Xa :
  contiguous_ids self -> caches_valid self -> all_invertible self ->
  _rearrange_input self samples = Ok Xa ->
  (_get_components_log_probabilities self samples).1
  = Ok (\matrix_(i, j)
          weighted_entry self (as_matrix (batch_rows samples) d Xa) i j).
Proof.
move=> contig valid inv_all XaE; rewrite serial_result // XaE /=.
set X := as_matrix _ _ _.
have poolE : pool_map (column_of_key self X) (dict_keys self)
    = Ok [seq (k, \col_i weighted_entry self X i k) | k <- dict_keys self].
  apply: pool_map_ok => k /dict_get_some[c get_k].
  by rewrite (column_of_keyE _ get_k) (inv_all _ _ get_k).
have tagsE : unzip1 [seq (k, \col_i weighted_entry self X i k)
                    | k <- dict_keys self] = dict_keys self.
  by rewrite /unzip1 -map_comp map_id_in.
have uniq_keys := contiguous_uniq contig.
have all_lt : all (fun k => (k < size self)%N) (dict_keys self).
  by apply/allP => k; rewrite contiguous_lt.
rewrite poolE /= merge_resultsE ?tagsE //.
congr Ok; apply/matrixP => i j; rewrite !mxE tagsE.
have j_in : (j : nat) \in dict_keys self by rewrite contiguous_lt.
rewrite j_in /unzip2 -map_comp (nth_map 0%N) ?index_mem //= nth_index //.
by rewrite mxE.
Qed.

Lemma serial_ok_invertible self samples :
  contiguous_ids self -> caches_valid self ->
  is_ok (_get_components_log_probabilities self samples).1 ->
  all_invertible self.
Proof.
move=> contig valid; rewrite serial_result //.
case: _rearrange_input => //= Xa.
set X := as_matrix _ _ _; set g := column_of_key self X.
have g_cases : {in dict_keys self, forall k,
    g k = Err LinAlgError \/ exists v, g k = Ok (k, v)}.
  by move=> k; exact: column_of_key_cases.
have := pool_map_tagged g_cases; case: ifP => [all_ok _ _|_ -> //].
move=> k c get_k; have := allP all_ok k (dict_get_in get_k).
by rewrite /g (column_of_keyE _ get_k); case: ifP.
Qed.

Lemma all_invertible_evaluated self :
  all_invertible self -> all_invertible (evaluated self).
Proof.
move=> inv_all k c'; rewrite dict_get_evaluated.
case get_k: (dict_get self k) => [c|] //= [<-].
have := inv_all _ _ get_k; rewrite /invertible /after_evaluation.
case: (c_c_factor c) => //.
by rewrite /cache_calculations; case: np_linalg_inv.
Qed.

(** X2.  When [_get_components_log_probabilities] returns on a mixture
    with ids [0..K-1] and valid caches, the new [self.components] keeps
    both invariants, and a second call on it with the same input returns
    a matrix with the same entries and leaves [self.components] as it
    is. *)
Theorem serial_evaluation_is_repeatable self samples M :
  contiguous_ids self -> caches_valid self ->
  (_get_components_log_probabilities self samples).1 = Ok M ->
  let st := (_get_components_log_probabilities self samples).2 in
  [/\ contiguous_ids st, caches_valid st,
      (_get_components_log_probabilities st samples).2 = st
    & exists2 M', (_get_components_log_probabilities st samples).1 = Ok M'
        & forall i (j : 'I_(size self)) (j' : 'I_(size st)),
            j = j' :> nat -> M' i j' = M i j].
Proof.
move=> contig valid ME.
have ok : is_ok (_get_components_log_probabilities self samples).1.
  by rewrite ME.
have inv_all := serial_ok_invertible contig valid ok.
have [Xa XaE] : exists Xa, _rearrange_input self samples = Ok Xa.
  move: ok; rewrite /_get_components_log_probabilities.
  by case: _rearrange_input => // Xa _; exists Xa.
rewrite /= (serial_state contig valid ok).
have contig' := contiguous_evaluated contig.
have valid' := caches_valid_evaluated valid.
have inv_all' := all_invertible_evaluated inv_all.
have XaE' : _rearrange_input (evaluated self) samples = Ok Xa.
  by rewrite rearrange_evaluated.
have M'E := serial_matrix contig' valid' inv_all' XaE'.
split=> //.
  by rewrite serial_state ?M'E // evaluated_twice.
eexists; first exact: M'E.
move=> i j j' jj'; move: ME; rewrite (serial_matrix contig valid inv_all XaE).
by move=> [<-]; rewrite !mxE weighted_entry_evaluated jj'.
Qed.

End StateAfter.

Lemma serial_evaluation_is_repeatable_witness :
  contiguous_ids two_components /\ caches_valid two_components /\
  exists M,
    (_get_components_log_probabilities two_components origin_batch).1 = Ok M
    /\ caches_valid
         (_get_components_log_probabilities two_components origin_batch).2.
Proof.
split; first exact: two_components_contiguous.
split; first exact: two_components_valid.
have := serial_total two_components_contiguous two_components_valid
          two_components_positive origin_batch_accepted.
case ME: (_get_components_log_probabilities two_components origin_batch).1
  => [M|] // _.
exists M; split=> //.
by have [] := serial_evaluation_is_repeatable
                two_components_contiguous two_components_valid ME.
Defined.

(** ** The mixture density *)

Lemma expN (x : R) : exp (- x) = (exp x)^-1.
Proof.
have exp_neq0 : exp x != 0 by rewrite gt_eqF // exp_gt0.
rewrite -[LHS]mul1r -(mulVf exp_neq0) -mulrA -expD subrr.
by rewrite (_ : exp 0 = 1) ?mulr1 //; exact: exp_0.
Qed.

Lemma log_sum_exp_pos n K (P : 'M[R]_(n, K)) :
  (0 < K)%N -> _log_sum_exp P = Ok (\col_i ln (\sum_j exp (P i j))).
Proof. by case: K P => // K P _; exact: log_sum_exp_succ. Qed.

Lemma sum_exp_pos K (f : 'I_K -> R) : (0 < K)%N -> 0 < \sum_j exp (f j).
Proof. by case: K f => // K f _; exact: sum_exp_gt0. Qed.

Section Density.
Variable d : nat.
Variable self : mixture d.
Variable samples Xa : ndarray.

Hypothesis contig : contiguous_ids self.
Hypothesis valid : caches_valid self.
Hypothesis D_gt0 : forall k c, dict_get self k = Some c -> positive_noise c.
Hypothesis pi_gt0 : forall k c, dict_get self k = Some c -> 0 < c_pi c.
Hypothesis accepted : _rearrange_input self samples = Ok Xa.

Let X := as_matrix (batch_rows samples) d Xa.

Lemma positive_all_invertible : all_invertible self.
Proof. by move=> k c /D_gt0; exact: IPiDP_unit. Qed.

Lemma nonempty_of_accepted : (0 < size self)%N.
Proof. by move: accepted; rewrite /_rearrange_input; case: self. Qed.

Lemma log_prob_entry_reference n c (Y : 'M[R]_(n, d)) i :
  positive_noise c -> log_prob_entry c Y i = reference_log_likelihood c (row i Y).
Proof.
move=> c_pos; have := component_log_probs_reference c_pos Y.
rewrite component_log_probsE IPiDP_unit // => -[] /colP /(_ i).
by rewrite !mxE.
Qed.

Lemma exp_weighted_entry i (j : 'I_(size self)) :
  exp (weighted_entry self X i j)
  = if dict_get self j is Some c then weighted_density c (row i X) else 0.
Proof.
have /dict_get_some[c get_j] : (j : nat) \in dict_keys self.
  by rewrite contiguous_lt.
rewrite /weighted_entry get_j expD /np_log (expK (pi_gt0 get_j)).
by rewrite (log_prob_entry_reference _ _ (D_gt0 get_j)).
Qed.

Lemma sum_exp_entries i :
  \sum_(j < size self) exp (weighted_entry self X i j)
  = mixture_density self (row i X).
Proof.
rewrite /mixture_density big_mkord; apply: eq_bigr => j _.
exact: exp_weighted_entry.
Qed.

Lemma mixture_density_gt0 i : 0 < mixture_density self (row i X).
Proof. by rewrite -sum_exp_entries sum_exp_pos // nonempty_of_accepted. Qed.

Lemma serial_matrix_positive :
  (_get_components_log_probabilities self samples).1
  = Ok (\matrix_(i, j) weighted_entry self X i j).
Proof. exact: serial_matrix positive_all_invertible accepted. Qed.

Lemma log_probabilities_density :
  (get_log_probabilities self samples).1
  = Ok (\col_i ln (mixture_density self (row i X))).
Proof.
have := serial_matrix_positive; rewrite /get_log_probabilities.
case: _get_components_log_probabilities => [r st] /= ->.
rewrite /= log_sum_exp_pos ?nonempty_of_accepted //; congr Ok.
apply/colP => i; rewrite !mxE -sum_exp_entries.
by congr (ln _); apply: eq_bigr => j _; rewrite mxE.
Qed.

(** X3.  For a mixture with ids [0..K-1], valid caches, positive noise
    variances and positive weights, and an accepted input:
    [get_probabilities] returns on every row [x] the mixture density
    [sum_k pi_k N(x; mu_k, Sigma_k)], which is positive;
    [get_log_probabilities] returns its logarithm; and
    [get_log_likelihood] the sum of these logarithms over the rows. *)
Theorem probabilities_are_mixture_density :
  [/\ forall i, 0 < mixture_density self (row i X),
      (get_probabilities self samples).1
      = Ok (\col_i mixture_density self (row i X)),
      (get_log_probabilities self samples).1
      = Ok (\col_i ln (mixture_density self (row i X)))
    & (get_log_likelihood self samples).1
      = Ok (\sum_i ln (mixture_density self (row i X)))].
Proof.
have lpE := log_probabilities_density.
split=> //; first exact: mixture_density_gt0.
  move: lpE; rewrite /get_probabilities.
  case: get_log_probabilities => [r st] /= -> /=; congr Ok.
  by apply/colP => i; rewrite !mxE /np_exp expK // mixture_density_gt0.
move: lpE; rewrite /get_log_likelihood.
case: get_log_probabilities => [r st] /= -> /=; congr Ok.
by apply: eq_bigr => i _; rewrite mxE.
Qed.

(** X4.  Under the same conditions [get_responsibilities] returns the
    posterior of Bayes' rule: the entry for row [x] and component [k] is
    [pi_k N(x; mu_k, Sigma_k)] divided by the mixture density at [x]. *)
Theorem responsibilities_are_posteriors :
  exists2 Rm, (get_responsibilities self samples).1 = Ok Rm
    & forall i (j : 'I_(size self)) c, dict_get self j = Some c ->
        Rm i j = weighted_density c (row i X) / mixture_density self (row i X).
Proof.
have := serial_matrix_positive.
rewrite /get_responsibilities /get_log_responsibilities.
case: _get_components_log_probabilities => [r st] /= -> /=.
rewrite log_sum_exp_pos ?nonempty_of_accepted //=.
eexists; first by [].
move=> i j c get_j; rewrite !mxE /np_exp expD expN.
have -> : \sum_(j0 < size self)
             exp ((\matrix_(i0, j1) weighted_entry self X i0 j1
                    : 'M_(batch_rows samples, size self)) i j0)
          = mixture_density self (row i X).
  by rewrite -sum_exp_entries; apply: eq_bigr => j0 _; rewrite mxE.
by rewrite expK ?mixture_density_gt0 // exp_weighted_entry get_j.
Qed.

End Density.

Lemma two_components_weights k c :
  dict_get two_components k = Some c -> 0 < c_pi c.
Proof.
by case: k => [|[|k]] //= [<-] /=; rewrite /half invr_gt0 ltr0n.
Qed.

Lemma probabilities_are_mixture_density_witness :
  [/\ contiguous_ids two_components, caches_valid two_components,
      forall k c, dict_get two_components k = Some c -> positive_noise c,
      forall k c, dict_get two_components k = Some c -> 0 < c_pi c
    & _rearrange_input two_components origin_batch = Ok origin_batch]
  /\ (get_probabilities two_components origin_batch).1
     = Ok (\col_i mixture_density two_components
                    (row i (as_matrix (batch_rows origin_batch) 1
                                      origin_batch))).
Proof.
have acc : _rearrange_input two_components origin_batch = Ok origin_batch.
  by [].
split.
  split=> //; [exact: two_components_valid | exact: two_components_positive
              | exact: two_components_weights].
by have [] := probabilities_are_mixture_density two_components_contiguous
  two_components_valid two_components_positive two_components_weights acc.
Defined.

Lemma responsibilities_are_posteriors_witness :
  [/\ contiguous_ids two_components, caches_valid two_components,
      forall k c, dict_get two_components k = Some c -> positive_noise c,
      forall k c, dict_get two_components k = Some c -> 0 < c_pi c
    & _rearrange_input two_components origin_batch = Ok origin_batch]
  /\ exists Rm, (get_responsibilities two_components origin_batch).1 = Ok Rm.
Proof.
have acc : _rearrange_input two_components origin_batch = Ok origin_batch.
  by [].
split.
  split=> //; [exact: two_components_valid | exact: two_components_positive
              | exact: two_components_weights].
have [Rm RmE _] := responsibilities_are_posteriors two_components_contiguous
  two_components_valid two_components_positive two_components_weights acc.
by exists Rm.
Defined.




(** ** The component log-density is largest at the mean *)

Section SigmaPositive.
Variable F : realFieldType.
Variables (d l : nat) (A : 'M[F]_(d, l)) (D : 'rV[F]_d).
Hypothesis D_gt0 : forall j, 0 < D 0 j.

Let S : 'M[F]_d := A *m A^T + diag_mx D.

Lemma quad_diag_gt0 (y : 'rV[F]_d) : y != 0 -> 0 < (y *m diag_mx D *m y^T) 0 0.
Proof.
move=> y_neq0; rewrite quad_diag.
have ge0 (j : 'I_d) : true -> 0 <= D 0 j * y 0 j ^+ 2.
  by move=> _; rewrite mulr_ge0 ?sqr_ge0 // ltW.
rewrite lt0r sumr_ge0 // andbT.
apply: contra_neq y_neq0 => /eqP; rewrite psumr_eq0 // => /allP h.
apply/rowP => j; rewrite mxE; apply/eqP; rewrite -sqrf_eq0.
have := implyP (h j (mem_index_enum _)) isT.
by rewrite mulf_eq0 gt_eqF.
Qed.

Lemma covariance_posdef : posdef S.
Proof.
move=> y y_neq0; rewrite /quad /S mulmxDr mulmxDl mxE.
have -> : y *m (A *m A^T) *m y^T = (y *m A) *m (y *m A)^T.
  by rewrite trmx_mul !mulmxA.
rewrite ltr_wpDl ?quad_diag_gt0 // quad_1 sumr_ge0 // => j _.
exact: sqr_ge0.
Qed.

Lemma covariance_inv_quad_ge0 (x : 'rV[F]_d) : 0 <= quad (invmx S) x.
Proof.
have [S_unit _] := woodbury_inv A D_gt0.
have S_sym : S^T = S by rewrite /S linearD /= trmx_mul trmxK tr_diag_mx.
have -> : quad (invmx S) x = quad S (x *m invmx S).
  rewrite /quad trmx_mul trmx_inv S_sym !mulmxA -[x *m _ *m S]mulmxA.
  by rewrite mulVmx // mulmx1.
case: (eqVneq (x *m invmx S) 0) => [->|/covariance_posdef/ltW //].
by rewrite /quad !mul0mx mxE.
Qed.

End SigmaPositive.

Section MaxAtMean.
Variable d : nat.
Implicit Types (self : mixture d) (c : component d).

Lemma reference_le_at_mean c (x : 'rV[R]_d) :
  positive_noise c ->
  reference_log_likelihood c x
  <= - half * (d%:R * ln (2 * PI) + ln (\det (Sigma c))).
Proof.
move=> D_gt0; rewrite /reference_log_likelihood /=.
have := covariance_inv_quad_ge0 (c_A c) D_gt0 (x - vec_of (c_mu c)).
rewrite /quad -/(Sigma c) /half.
set q := (_ *m _ *m _) 0 0; set a := _ * ln _; set b := ln _ => q_ge0.
by rewrite -addrA mulrDr gerDr mulNr oppr_le0 mulr_ge0 // invr_ge0 ler0n.
Qed.

Lemma reference_at_mean c :
  reference_log_likelihood c (vec_of (c_mu c))
  = - half * (d%:R * ln (2 * PI) + ln (\det (Sigma c))).
Proof.
by rewrite /reference_log_likelihood /= subrr !mul0mx mxE add0r.
Qed.

(** X6.  For a component with positive noise variances (and a valid
    cache), every entry that [_get_component_log_probs] returns is at
    most [-0.5 (d log(2 pi) + log det Sigma)], and that value is
    attained on a row equal to the mean: the log-density is largest at
    the mean. *)
Theorem component_log_probs_max_at_mean n self (X : 'M[R]_(n, d)) k c :
  dict_get self k = Some c -> cache_valid c -> positive_noise c ->
  exists2 v, (_get_component_log_probs self X k).1 = Ok v
    & forall i,
        v i 0 <= - half * (d%:R * ln (2 * PI) + ln (\det (Sigma c)))
        /\ (row i X = vec_of (c_mu c) ->
            v i 0 = - half * (d%:R * ln (2 * PI) + ln (\det (Sigma c)))).
Proof.
move=> get_k valid D_gt0.
rewrite (get_component_log_probs_valid X get_k valid) /=.
rewrite component_log_probs_reference //; eexists; first by [].
move=> i; rewrite mxE; split; first exact: reference_le_at_mean.
by move=> ->; exact: reference_at_mean.
Qed.

End MaxAtMean.

Lemma component_log_probs_max_at_mean_witness :
  [/\ dict_get two_components 0 = Some (unit_component half),
      cache_valid (unit_component half)
    & positive_noise (unit_component half)]
  /\ exists v,
       (_get_component_log_probs two_components (0 : 'M[R]_(1, 1)) 0).1
       = Ok v.
Proof.
have get0 : dict_get two_components 0 = Some (unit_component half) by [].
have valid : cache_valid (unit_component half) by left.
split; first by split=> //; exact: unit_component_positive.
have [v vE _] := component_log_probs_max_at_mean (0 : 'M[R]_(1, 1))
  get0 valid (unit_component_positive half).
by exists v.
Defined.

(** ** Inputs that [_rearrange_input] rejects *)

Section RejectedInput.
Variable d : nat.
Implicit Types (self : mixture d) (samples : ndarray).

(** X7.  An exception of [_rearrange_input] (a failed shape assertion,
    or [StopIteration] on a mixture without components) is the
    exception of every likelihood entry point, serial or parallel, and
    [self.components] is left as it was. *)
Theorem rejected_input_fails_everywhere self samples e :
  _rearrange_input self samples = Err e ->
  [/\ _get_components_log_probabilities self samples = (Err e, self),
      get_log_probabilities self samples = (Err e, self)
      /\ get_log_likelihood self samples = (Err e, self),
      get_probabilities self samples = (Err e, self),
      get_log_responsibilities self samples = (Err e, self)
      /\ get_responsibilities self samples = (Err e, self)
    & _get_components_log_probabilities_multithreaded self samples = Err e].
Proof.
move=> rejected.
have serE : _get_components_log_probabilities self samples = (Err e, self).
  by rewrite /_get_components_log_probabilities rejected.
rewrite /get_responsibilities /get_log_responsibilities /get_probabilities.
rewrite /get_log_likelihood /get_log_probabilities serE /=.
by rewrite /_get_components_log_probabilities_multithreaded rejected.
Qed.

End RejectedInput.

Lemma rejected_input_fails_everywhere_witness :
  let samples := NdArray [:: 1%N; 2%N] [:: 0; 0] in
  _rearrange_input two_components samples = Err DimensionMismatchError
  /\ get_log_likelihood two_components samples
     = (Err DimensionMismatchError, two_components).
Proof.
move=> samples.
have rejected :
  _rearrange_input two_components samples = Err DimensionMismatchError by [].
split; first by [].
by have [_ [_ ->]] := rejected_input_fails_everywhere rejected.
Defined.

(** ** A single point and the one-row batch *)

Section PointInput.
Variable d : nat.
Implicit Types (self : mixture d) (xs : seq R).

Lemma rearrange_point_batch self xs :
  _rearrange_input self (NdArray [:: d] xs)
  = _rearrange_input self (NdArray [:: 1%N; d] xs).
Proof.
case: self => [|kc self] //=.
by rewrite /np_size /= big_cons big_nil muln1 eqxx.
Qed.

(** X8.  A point given as a vector of shape [[d]] is evaluated as the
    batch of shape [[1, d]] with the same numbers: every likelihood
    entry point returns the same result (or raises the same exception)
    and leaves the same state for the two inputs. *)
Theorem point_is_one_row_batch self xs :
  [/\ _get_components_log_probabilities self (NdArray [:: d] xs)
      = _get_components_log_probabilities self (NdArray [:: 1%N; d] xs),
      get_log_probabilities self (NdArray [:: d] xs)
      = get_log_probabilities self (NdArray [:: 1%N; d] xs)
      /\ get_log_likelihood self (NdArray [:: d] xs)
         = get_log_likelihood self (NdArray [:: 1%N; d] xs),
      get_probabilities self (NdArray [:: d] xs)
      = get_probabilities self (NdArray [:: 1%N; d] xs),
      get_log_responsibilities self (NdArray [:: d] xs)
      = get_log_responsibilities self (NdArray [:: 1%N; d] xs)
      /\ get_responsibilities self (NdArray [:: d] xs)
         = get_responsibilities self (NdArray [:: 1%N; d] xs)
    & _get_components_log_probabilities_multithreaded self
        (NdArray [:: d] xs)
      = _get_components_log_probabilities_multithreaded self
          (NdArray [:: 1%N; d] xs)].
Proof.
have serE : _get_components_log_probabilities self (NdArray [:: d] xs)
    = _get_components_log_probabilities self (NdArray [:: 1%N; d] xs).
  rewrite /_get_components_log_probabilities rearrange_point_batch.
  by case: _rearrange_input.
rewrite /get_responsibilities /get_log_responsibilities /get_probabilities.
rewrite /get_log_likelihood /get_log_probabilities serE.
rewrite /_get_components_log_probabilities_multithreaded.
by rewrite rearrange_point_batch; split=> //; case: _rearrange_input.
Qed.

End PointInput.

(** ** Component ids that are not [0..K-1] *)

Section MissingId.
Variable d : nat.
Implicit Types (self : mixture d) (samples : ndarray).

Lemma component_tasks_missing n self (X : 'M[R]_(n, d)) ids i :
  i \in ids -> dict_get self i = None ->
  component_tasks self X ids = Err KeyError.
Proof.
move=> i_in get_i; elim: ids i_in => [|i0 ids IH] //=.
rewrite inE; case get_i0: (dict_get self i0) => [c|] //.
case: (eqVneq i i0) => [i_i0|_] /=; first by rewrite -i_i0 get_i in get_i0.
by move=> /IH ->.
Qed.

Lemma component_tasks_total n self (X : 'M[R]_(n, d)) ids :
  all (fun i => isSome (dict_get self i)) ids ->
  exists2 ts, component_tasks self X ids = Ok ts
    & [seq comp_num t | t <- ts] = ids.
Proof.
elim: ids => [|i ids IH] /=; first by exists [::].
case get_i: (dict_get self i) => [c|] //= /IH[ts -> tags] /=.
by exists (Task i c X :: ts); rewrite //= tags.
Qed.

Lemma pool_map_task_err n (ts : seq (task d n)) e :
  pool_map (@_get_component_log_probs_task d n) ts = Err e ->
  e = LinAlgError.
Proof.
elim: ts => [|t ts IH] //=.
rewrite {1}/_get_component_log_probs_task /np_linalg_inv.
case: ifP => _ /=; last by case.
by case: (pool_map _ ts) IH => [rs|e'] //= IH [<-]; exact: IH.
Qed.

Lemma merge_results_err_index n K rs (out : 'M[R]_(n, K)) e :
  merge_results rs out = Err e -> e = IndexError.
Proof.
elim: rs out => [|r rs IH] out //; rewrite merge_results_cons /set_column.
by case: ifP => _ /=; [exact: IH | case].
Qed.

(** X9.  On an accepted input the parallel path raises [KeyError]
    exactly when some id below the number of components is not a key
    of [self.components]: the lookup [self.components[i]] of the task
    list fails before any component is evaluated, and nothing else in
    that path raises [KeyError]. *)
Theorem missing_id_fails self samples :
  is_ok (_rearrange_input self samples) ->
  _get_components_log_probabilities_multithreaded self samples = Err KeyError
  <-> exists2 i, (i < size self)%N & dict_get self i = None.
Proof.
rewrite /_get_components_log_probabilities_multithreaded.
case: _rearrange_input => //= Xa _; split; last first.
  move=> [i i_lt get_i].
  by rewrite (component_tasks_missing _ _ get_i) // mem_iota add0n.
set X := as_matrix _ _ _.
case: (boolP (all (fun i => isSome (dict_get self i)) (iota 0 (size self)))).
  move=> /(component_tasks_total X)[ts -> _] /=.
  case poolE: (pool_map _ ts) => [rs|e] /=.
    by move=> /merge_results_err_index.
  by have -> := pool_map_task_err poolE.
rewrite -has_predC => /hasP[i]; rewrite mem_iota add0n /= => i_lt.
by case get_i: (dict_get self i) => [c|] // _ _; exists i.
Qed.

End MissingId.

Lemma missing_id_fails_witness :
  let self : mixture 1 := [:: (1%N, unit_component 1)] in
  is_ok (_rearrange_input self origin_batch)
  /\ _get_components_log_probabilities_multithreaded self origin_batch
     = Err KeyError.
Proof.
move=> self; split; first by [].
have [_ raises] := @missing_id_fails 1 self origin_batch isT.
by apply: raises; exists 0%N.
Defined.

(** ** The weights that [draw_samples] hands to [np.random.choice] *)

Lemma py_sumE (xs : seq R) : py_sum xs = \sum_(x <- xs) x.
Proof.
have gen a : foldl +%R a xs = a + \sum_(x <- xs) x.
  elim: xs a => [|x xs IH] a /=; first by rewrite big_nil addr0.
  by rewrite IH big_cons addrA.
by rewrite /py_sum gen add0r.
Qed.

Section DrawWeights.
Variable d : nat.
Variable self : mixture d.

Let pi := [seq c_pi c | c <- dict_values self].

(** X10.  Whenever the weight preparation of [draw_samples] does not
    raise, the vector it hands to [np.random.choice] has one entry per
    component and sums to 1 (in exact arithmetic): either the weights
    summed to 1 already, or the correction of the largest weight
    removes the whole deviation. *)
Theorem draw_samples_weights_sum_to_one pi' :
  draw_samples_pi self = Ok pi' ->
  size pi' = size self /\ \sum_(x <- pi') x = 1.
Proof.
have size_pi : size pi = size self by rewrite /pi /dict_values !size_map.
case: (eqVneq (py_sum pi) 1) => [sp1|sp_neq1].
  rewrite (draw_samples_pi_exact sp1) => -[<-].
  by rewrite -py_sumE.
case: (ltP `|py_sum pi - 1| eps_weights) => [dev|/draw_samples_pi_fail -> //].
have [i [pi'' [-> [i_lt size_pi''] _ nth_i nth_other]]] :=
  draw_samples_pi_correct sp_neq1 dev.
move=> [<-]; rewrite size_pi'' size_pi; split=> //.
have sumE : py_sum pi = pi`_i + \sum_(j < size pi | j != Ordinal i_lt) pi`_j.
  by rewrite py_sumE (big_nth 0) big_mkord (bigD1 (Ordinal i_lt)).
rewrite (big_nth 0) size_pi'' big_mkord (bigD1 (Ordinal i_lt)) //= nth_i.
have -> : \sum_(j < size pi | j != Ordinal i_lt) pi''`_j
          = \sum_(j < size pi | j != Ordinal i_lt) pi`_j.
  by apply: eq_bigr => j j_neq; rewrite nth_other.
by rewrite addrAC -sumE opprB addrCA subrr addr0.
Qed.

End DrawWeights.

Lemma draw_samples_weights_sum_to_one_witness :
  draw_samples_pi two_components = Ok [:: half; half]
  /\ \sum_(x <- [:: half; half]) x = 1.
Proof.
have piE : draw_samples_pi two_components = Ok [:: half; half].
  rewrite /draw_samples_pi /py_sum /= add0r.
  by rewrite /half -mulr2n -mulr_natr mulVf ?eqxx // pnatr_eq0.
split; first exact: piE.
by have [] := draw_samples_weights_sum_to_one piE.
Defined.

(** ** The ranges of the randomized parameters *)

Lemma uniform_range (low high u : R) :
  low < high -> unit_interval u ->
  low <= np_random_uniform low high u < high.
Proof.
move=> low_high /andP[u_ge0 u_lt1]; rewrite /np_random_uniform.
have gap : 0 < high - low by rewrite subr_gt0.
by rewrite lerDl mulr_ge0 ?(ltW gap) //= -ltrBrDl gtr_pMr.
Qed.

Section RandomizedRanges.
Variables (K dim : nat).
Variables (low_rank_scale noise_variance mu_range : R).
Variable rnd : rng_draws dim.
Hypothesis u_pi_unit : forall i, unit_interval (u_pi rnd i).
Hypothesis u_D_unit : forall i j, unit_interval (u_D rnd i 0 j).
Hypothesis u_mu_unit : forall i j, unit_interval (u_mu rnd i 0 j).
Hypothesis noise_variance_gt0 : 0 < noise_variance.
Hypothesis mu_range_gt0 : 0 < mu_range.

Let comps :=
  (randomize_params K low_rank_scale noise_variance mu_range false rnd).2.

Let x i : R := np_random_uniform 5^-1 1 (u_pi rnd i).
Let s : R := \sum_(y <- [seq y ^+ 2 | y <- [seq x i | i <- iota 0 K]]) y.

Lemma randomize_pi_nth i : (i < K)%N -> (randomize_pi K rnd)`_i = x i ^+ 2 / s.
Proof.
move=> iK; rewrite /randomize_pi /s; lazy zeta.
rewrite (nth_map 0) ?size_map ?size_iota //.
by rewrite (nth_map 0) ?size_map ?size_iota // (nth_map 0%N) ?size_iota // nth_iota.
Qed.

Lemma randomize_draw_range i : 5^-1 <= x i < 1.
Proof.
by apply: uniform_range => //; rewrite invf_lt1 ?ltr0n // (ltr_nat _ 1 5).
Qed.

(** X11.  With [isotropic_noise] off, draws of the generator in the
    half-open unit interval, a positive [noise_variance] and a positive
    [mu_range], every component that [randomize_params] stores has its
    noise variances in [[noise_variance/10, noise_variance)], the
    entries of its mean in [[-mu_range, mu_range)], and a weight less
    than 25 times the weight of any other component. *)
Theorem randomize_params_ranges k c :
  dict_get comps k = Some c ->
  [/\ forall j, noise_variance / 10 <= c_D c 0 j < noise_variance,
      forall j, - mu_range <= vec_of (c_mu c) 0 j < mu_range
    & forall k' c', dict_get comps k' = Some c' -> c_pi c < 25 * c_pi c'].
Proof.
case: (ltP low_rank_scale 0) => [scale_lt0|scale_ge0].
  by rewrite /comps randomize_params_negative_scale.
rewrite /comps randomize_paramsE //= dict_get_mkseq.
case: ifP => // kK [<-] /=; split.
- move=> j; rewrite mxE; apply: uniform_range => //.
  by rewrite gtr_pMr // invf_lt1 ?ltr0n // (ltr_nat _ 1 10).
- move=> j; rewrite mxE; apply: uniform_range => //.
  by rewrite gt0_cp.
move=> k' c'; rewrite dict_get_mkseq; case: ifP => // k'K [<-] /=.
have K_gt0 : (0 < K)%N by exact: leq_ltn_trans kK.
have s_gt0 : 0 < s by exact: sum_pi1_gt0.
rewrite !randomize_pi_nth // mulrA ltr_pM2r ?invr_gt0 //.
have /andP[xk_ge xk_lt] := randomize_draw_range k.
have /andP[xk'_ge xk'_lt] := randomize_draw_range k'.
have fifth_gt0 : 0 < (5^-1 : R) by rewrite invr_gt0 ltr0n.
have xk_ge0 : 0 <= x k by exact: le_trans (ltW fifth_gt0) xk_ge.
apply: (@lt_le_trans _ _ 1); first by rewrite expr_lt1.
have -> : 25 = (5 ^+ 2 : R) by rewrite -natrX.
rewrite -exprMn expr_ge1 // ?mulr_ge0 ?ler0n ?(le_trans (ltW fifth_gt0)) //.
by rewrite -ler_pdivrMl ?ltr0n // mulr1.
Qed.

End RandomizedRanges.

Lemma zero_draws_mu_unit i j : unit_interval (u_mu zero_draws i 0 j).
Proof. by rewrite /unit_interval /= mxE lexx ltr01. Qed.

Lemma randomize_params_ranges_witness :
  [/\ forall i, unit_interval (u_pi zero_draws i),
      forall i j, unit_interval (u_D zero_draws i 0 j),
      forall i j, unit_interval (u_mu zero_draws i 0 j),
      0 < (1 : R)
    & exists c,
        dict_get (randomize_params 1 1 1 1 false zero_draws).2 0 = Some c]
  /\ exists2 c,
       dict_get (randomize_params 1 1 1 1 false zero_draws).2 0 = Some c
       & forall j, 1 / 10 <= c_D c 0 j < 1.
Proof.
have [pi_unit D_unit] := zero_draws_unit.
have [c get0] : exists c,
    dict_get (randomize_params 1 1 1 1 false zero_draws).2 0 = Some c.
  by eexists; rewrite randomize_paramsE ?ler01.
split.
  split; [exact: pi_unit | exact: D_unit | exact: zero_draws_mu_unit
         | exact: ltr01 | by exists c].
exists c; first by [].
by have [] := randomize_params_ranges pi_unit D_unit zero_draws_mu_unit
                ltr01 ltr01 get0.
Defined.

(** ** Using a randomized mixture *)

Section EntryPointsTotal.
Variable d : nat.
Variables (self : mixture d) (samples : ndarray).
Hypothesis contig : contiguous_ids self.
Hypothesis valid : caches_valid self.
Hypothesis D_gt0 : forall k c, dict_get self k = Some c -> positive_noise c.
Hypothesis accepted : is_ok (_rearrange_input self samples).

Lemma entry_points_total :
  [/\ is_ok (get_log_probabilities self samples).1,
      is_ok (get_log_likelihood self samples).1,
      is_ok (get_probabilities self samples).1,
      is_ok (get_log_responsibilities self samples).1
    & is_ok (get_responsibilities self samples).1].
Proof.
rewrite /get_responsibilities /get_log_responsibilities /get_probabilities.
rewrite /get_log_likelihood /get_log_probabilities.
have := serial_total contig valid D_gt0 accepted.
case: _get_components_log_probabilities => [[P|e] st] //= _.
by have := log_sum_exp_total P accepted; case: _log_sum_exp.
Qed.

End EntryPointsTotal.

Section RandomizedUse.
Variables (K dim : nat).
Variables (low_rank_scale noise_variance mu_range : R).
Variable rnd : rng_draws dim.
Hypothesis K_gt0 : (0 < K)%N.
Hypothesis scale_ge0 : 0 <= low_rank_scale.
Hypothesis u_pi_unit : forall i, unit_interval (u_pi rnd i).
Hypothesis u_D_unit : forall i j, unit_interval (u_D rnd i 0 j).
Hypothesis noise_variance_gt0 : 0 < noise_variance.

Let self :=
  (randomize_params K low_rank_scale noise_variance mu_range false rnd).2.

Lemma randomized_positive k c : dict_get self k = Some c -> positive_noise c.
Proof.
rewrite /self randomize_paramsE //= dict_get_mkseq; case: ifP => // _ [<-].
exact: new_component_positive.
Qed.

Lemma randomized_weights :
  [seq c_pi c | c <- dict_values self] = randomize_pi K rnd.
Proof.
rewrite /self randomize_paramsE //= /dict_values /unzip2 -!map_comp.
apply: (@eq_from_nth _ 0) => [|i]; rewrite size_map size_iota.
  by rewrite size_randomize_pi.
by move=> iK; rewrite (nth_map 0%N) ?size_iota //= nth_iota.
Qed.

(** X12.  A mixture left by [randomize_params] ([isotropic_noise] off,
    at least one component, a non-negative [low_rank_scale], a positive
    [noise_variance], draws in the half-open unit interval) can be used
    as it is: the weight preparation of [draw_samples] does not fail
    its assertion on the sum of the weights, and on every batch of
    shape [[n, dim]] each likelihood entry point, and the parallel
    path, returns without raising. *)
Theorem randomized_mixture_is_usable :
  is_ok (draw_samples_pi self)
  /\ forall samples n, shape samples = [:: n; dim] ->
       [/\ is_ok (get_log_likelihood self samples).1,
           is_ok (get_probabilities self samples).1,
           is_ok (get_responsibilities self samples).1
         & is_ok (_get_components_log_probabilities_multithreaded
                    self samples)].
Proof.
have [sizeE contig valid] :=
  randomize_params_wellformed K noise_variance mu_range rnd scale_ge0.
split.
  rewrite (@draw_samples_pi_exact _ self) //.
  by rewrite py_sumE randomized_weights randomize_pi_sum.
move=> samples n shp.
have nonempty : (0 < size self)%N by rewrite /self sizeE.
have accepted : is_ok (_rearrange_input self samples).
  by rewrite (rearrange_batch nonempty shp).
have [_ ll_ok p_ok _ r_ok] :=
  entry_points_total contig valid randomized_positive accepted.
split=> //.
have keysE : dict_keys self = iota 0 (size self).
  rewrite /self sizeE randomize_paramsE // /dict_keys /unzip1 -map_comp.
  by rewrite map_id_in.
rewrite parallel_result // -keysE -serial_result //.
exact: (serial_total contig valid randomized_positive accepted).
Qed.

End RandomizedUse.

Lemma randomized_mixture_is_usable_witness :
  [/\ (0 < 1)%N, 0 <= (1 : R), forall i, unit_interval (u_pi zero_draws i),
      forall i j, unit_interval (u_D zero_draws i 0 j) & 0 < (1 : R)]
  /\ is_ok (draw_samples_pi (randomize_params 1 1 1 1 false zero_draws).2).
Proof.
have [pi_unit D_unit] := zero_draws_unit.
split.
  split; [by [] | exact: ler01 | exact: pi_unit | exact: D_unit
         | exact: ltr01].
by have [] := @randomized_mixture_is_usable 1 1 1 1 1 zero_draws isT ler01
                pi_unit D_unit ltr01.
Defined.

(** ** A mixture without components *)

Section NoComponents.
Variable dim : nat.
Variables (low_rank_scale noise_variance mu_range : R).
Variable rnd : rng_draws dim.


End NoComponents.


(** ** The sampler and the covariance of the density *)

Lemma sqrt_sqr_ge0 (x : R) : 0 <= x -> sqrt x * sqrt x = x.
Proof. by move=> /RleP x_ge0; exact: sqrt_sqrt. Qed.

Section SamplerCovariance.
Variables (d n : nat) (c : component d).
Variables (z_l : 'M[R]_(n, c_l c)) (z_d : 'M[R]_(n, d)).

(** The linear map that [_draw_from_component] applies to the stacked
    draws [(z_l | z_d)]. *)
Let L : 'M[R]_(d, c_l c + d) :=
  row_mx (c_A c) (diag_mx (map_mx sqrt (c_D c))).

(** X14.  For a component whose mean is an array: without noise the
    draw is [mu + z_l A^T], whatever [D] holds; and when the noise
    variances are non-negative, a noisy draw is [mu + (z_l | z_d) L^T]
    for the matrix [L = (A | diag(sqrt D))], and [L L^T] is the
    covariance [A A^T + diag(D)] of the density that the likelihood
    functions evaluate. *)
Theorem draw_from_component_covariance mu :
  c_mu c = NpVec mu ->
  _draw_from_component c false z_l z_d
  = Ok (map_mx Finite (badd_row (z_l *m (c_A c)^T) mu))
  /\ ((forall j, 0 <= c_D c 0 j) ->
      L *m L^T = Sigma c
      /\ _draw_from_component c true z_l z_d
         = Ok (map_mx Finite (badd_row (row_mx z_l z_d *m L^T) mu))).
Proof.
move=> muE; rewrite /_draw_from_component muE /L; split=> // D_ge0.
rewrite tr_row_mx !mul_row_col tr_diag_mx mulmx_diag; split.
  rewrite /Sigma; congr (_ + diag_mx _); apply/rowP => j.
  by rewrite !mxE sqrt_sqr_ge0.
congr Ok; apply/matrixP => i j.
rewrite mul_mx_diag [LHS]mxE [RHS]mxE /np_sqrt ltNge D_ge0 /=.
by congr Finite; rewrite /badd_row !mxE addrAC.
Qed.

End SamplerCovariance.

Lemma draw_from_component_covariance_witness :
  [/\ c_mu (unit_component 1) = NpVec 0
    & forall j, 0 <= c_D (unit_component 1) 0 j]
  /\ row_mx (c_A (unit_component 1))
            (diag_mx (map_mx sqrt (c_D (unit_component 1))))
     *m (row_mx (c_A (unit_component 1))
               (diag_mx (map_mx sqrt (c_D (unit_component 1)))))^T
     = Sigma (unit_component 1).
Proof.
have D_ge0 j : 0 <= c_D (unit_component 1) 0 j.
  exact/ltW/unit_component_positive.
split; first by [].
have [_ noisy] := @draw_from_component_covariance 1 1 (unit_component 1)
                    0 0 0 erefl.
by have [] := noisy D_ge0.
Defined.

(** ** Files *)



Section Files.
Variable d : nat.
Variable blob : Type.
Variable pickle_dump : mixture d -> blob.
Variable pickle_load : blob -> result (mixture d).
Implicit Types (self : mixture d) (fs : filesystem blob).


Hypothesis pickle_roundtrip : forall m, pickle_load (pickle_dump m) = Ok m.

Lemma coerce_mu_arrays self ks :
  (forall k c, dict_get self k = Some c -> is_ndarray (c_mu c)) ->
  foldl (@coerce_mu d) self ks = self.
Proof.
move=> arrays; elim: ks => [|k ks IH] //=.
suff -> : coerce_mu self k = self by [].
rewrite /coerce_mu; case get_k: (dict_get self k) => [c|] //.
have := with_array_mu_id (arrays _ _ get_k); rewrite /with_array_mu => ->.
by rewrite dict_set_same.
Qed.

Lemma load_arrays name fs m :
  load pickle_load name fs = Ok m ->
  forall k c, dict_get m k = Some c -> is_ndarray (c_mu c).
Proof.
rewrite /load; case: (fs _) => [b|] //.
case: (pickle_load b) => [comps|] //= [<-] k c.
rewrite dict_get_foldl_coerce; case: ifP => [_|/negbT/dict_get_notin -> //].
by case: (dict_get comps k) => [c0|] //= [<-].
Qed.

(** X16.  Provided [pickle.load] returns what [pickle.dump] was given:
    a mixture whose means are arrays is read back by [load] exactly as
    [save] wrote it, cache keys and order of the components included;
    in particular whatever [load] has returned is reproduced exactly by
    saving and loading it again. *)
Theorem save_load_exact self name fs :
  [/\ (forall k c, dict_get self k = Some c -> is_ndarray (c_mu c)) ->
      load pickle_load name (save pickle_dump self name fs) = Ok self
    & forall name0 fs0 m, load pickle_load name0 fs0 = Ok m ->
      load pickle_load name (save pickle_dump m name fs) = Ok m].
Proof.
have exact m : (forall k c, dict_get m k = Some c -> is_ndarray (c_mu c)) ->
    load pickle_load name (save pickle_dump m name fs) = Ok m.
  move=> arrays; rewrite /load /save String.eqb_refl pickle_roundtrip /=.
  by rewrite coerce_mu_arrays.
split; first exact: exact.
by move=> name0 fs0 m /load_arrays; exact: exact.
Qed.

End Files.


Lemma two_components_arrays k c :
  dict_get two_components k = Some c -> is_ndarray (c_mu c).
Proof. by case: k => [|[|k]] //= [<-]. Qed.

Lemma save_load_exact_witness :
  [/\ forall m : mixture 1, Ok (id m) = Ok m
    & forall k c, dict_get two_components k = Some c -> is_ndarray (c_mu c)]
  /\ load (@Ok (mixture 1)) "model"
       (save id two_components "model" (fun _ => None))
     = Ok two_components.
Proof.
split; first by split=> //; exact: two_components_arrays.
have [exact _] := @save_load_exact 1 (mixture 1) id (@Ok _) (fun m => erefl)
  two_components "model" (fun _ => None).
exact: exact two_components_arrays.
Defined.

(** ** Bounds on [_log_sum_exp] *)

Lemma ln_le_mono (x y : R) : 0 < x -> x <= y -> ln x <= ln y.
Proof.
move=> x_gt0; rewrite le_eqVlt => /orP[/eqP ->|x_lt_y] //.
by apply/ltW/RltP/ln_increasing; apply/RltP.
Qed.

Lemma exp_le_mono (x y : R) : x <= y -> exp x <= exp y.
Proof.
rewrite le_eqVlt => /orP[/eqP ->|x_lt_y] //.
by apply/ltW/RltP/exp_increasing; apply/RltP.
Qed.

(** X17.  Whenever [_log_sum_exp] returns: every entry of a row is at
    most the result for that row; the result is at most [m + log K] for
    any bound [m] of the row's [K] entries (so it lies between the
    row maximum and the row maximum plus [log K]); and adding a number
    to every entry of a row adds it to the result. *)
Theorem log_sum_exp_bounds n K (ns : 'M[R]_(n, K)) lse :
  _log_sum_exp ns = Ok lse ->
  [/\ forall i j, ns i j <= lse i 0,
      forall i (m : R), (forall j, ns i j <= m) -> lse i 0 <= m + ln K%:R
    & forall v : 'cV[R]_n,
        _log_sum_exp (\matrix_(i, j) (ns i j + v i 0)) = Ok (lse + v)].
Proof.
case: K ns => [|K] ns //; rewrite log_sum_exp_succ => -[<-].
rewrite /np_log /np_exp; split.
- move=> i j; rewrite mxE -[leLHS]lnK ln_le_mono ?exp_gt0 //.
  rewrite (bigD1 j) //= lerDl sumr_ge0 // => j0 _.
  exact/ltW/exp_gt0.
- move=> i m bound; rewrite mxE.
  have K_gt0 : 0 < (K.+1%:R : R) by rewrite ltr0n.
  rewrite -[m]lnK addrC -ln_mul ?exp_gt0 // ln_le_mono ?sum_exp_gt0 //.
  have -> : K.+1%:R * exp m = \sum_(j < K.+1) exp m.
    by rewrite sumr_const card_ord mulr_natl.
  by rewrite ler_sum // => j _; rewrite exp_le_mono.
move=> v; rewrite log_sum_exp_succ; congr Ok; apply/colP => i.
rewrite !mxE /np_log /np_exp.
rewrite -(log_sum_exp_shift (fun j => (\matrix_(i0, j0) (ns i0 j0 + v i0 0)) i j)
            (v i 0)) addrC.
by congr (ln _ + _); apply: eq_bigr => j _; rewrite mxE addrK.
Qed.

Lemma log_sum_exp_bounds_witness :
  exists2 lse, _log_sum_exp (const_mx 0 : 'M[R]_(1, 1)) = Ok lse
    & forall i j, (const_mx 0 : 'M[R]_(1, 1)) i j <= lse i 0.
Proof.
eexists; first exact: log_sum_exp_succ.
by have [] := log_sum_exp_bounds (log_sum_exp_succ (const_mx 0 : 'M[R]_(1, 1))).
Defined.

(** ** The debug variant of the serial path *)

Section DebugVariant.
Variable d : nat.
Implicit Types (self st : mixture d) (samples : ndarray).

Lemma debug_step_err n K (X : 'M[R]_(n, d)) e st (post : mixture d) :
  foldl (debug_step X) (Err e : result 'M[R]_(n, K), st) post = (Err e, st).
Proof. by elim: post. Qed.

Lemma serial_step_err_state n K (X : 'M[R]_(n, d)) e st (post : mixture d) :
  foldl (serial_step X) (Err e : result 'M[R]_(n, K), st) post = (Err e, st).
Proof. by elim: post. Qed.

Lemma In_dict_keys self kc : List.In kc self -> kc.1 \in dict_keys self.
Proof.
elim: self => [|kc0 self IH] //= [->|/IH in_keys]; first exact: mem_head.
by rewrite inE in_keys orbT.
Qed.

Lemma dict_get_item self kc :
  uniq (dict_keys self) -> List.In kc self -> dict_get self kc.1 = Some kc.2.
Proof.
elim: self => [|[k0 c0] self IH] //= /andP[k0_notin keys_uniq].
case=> [<-|kc_in] /=; first by rewrite eqxx.
case: (eqVneq k0 kc.1) => [k0E|_]; last exact: IH.
by rewrite k0E (In_dict_keys kc_in) in k0_notin.
Qed.

(** The two loops run in step: same state, same exception, and result
    matrices that differ by the log-weight on the columns written so
    far. *)
Lemma debug_simulation n K (X : 'M[R]_(n, d)) (off : nat -> R)
    (s : mixture d) done (out out' : 'M[R]_(n, K)) st :
  (forall kc, List.In kc s -> off kc.1 = np_log (c_pi kc.2)) ->
  (forall i j, out i j
               = (if (j : nat) \in done then off j else 0) + out' i j) ->
  (foldl (debug_step X) (Ok out', st) s).2
  = (foldl (serial_step X) (Ok out, st) s).2
  /\ match (foldl (serial_step X) (Ok out, st) s).1,
           (foldl (debug_step X) (Ok out', st) s).1 with
     | Ok M, Ok M' =>
       forall i j,
         M i j = (if (j : nat) \in done ++ dict_keys s then off j else 0)
                 + M' i j
     | Err e, Err e' => e = e'
     | _, _ => False
     end.
Proof.
elim: s done out out' st => [|[k c] s IH] done out out' st offE rel /=.
  by rewrite cats0.
case: (_get_component_log_probs st X k) => [[v|e] st'] /=; last first.
  by rewrite debug_step_err serial_step_err_state.
rewrite /set_column; case: ifP => kK; last first.
  by rewrite debug_step_err serial_step_err_state.
have offE' kc : List.In kc s -> off kc.1 = np_log (c_pi kc.2).
  by move=> kc_in; apply: offE => /=; right.
set out1' := (\matrix_(i, j) _ : 'M[R]_(n, K)).
set out1 := (\matrix_(i, j) _ : 'M[R]_(n, K)).
have rel1 i j :
    out1 i j = (if (j : nat) \in rcons done k then off j else 0) + out1' i j.
  have kc_in : List.In (k, c) ((k, c) :: s) by left.
  rewrite !mxE mem_rcons inE; case: (eqVneq (j : nat) k) => [->|_] /=.
    by rewrite (offE _ kc_in).
  exact: rel.
have [-> IH2] := IH (rcons done k) out1 out1' st' offE' rel1; split=> //.
move: IH2; case: (foldl _ _ _).1 => [M|e]; case: (foldl _ _ _).1 => [M'|e'] //.
by move=> MM' i j; rewrite MM' cat_rcons.
Qed.

(** X18.  [_get_components_log_probabilities_debug] runs the serial
    loop without the weights: on a mixture with distinct keys it leaves
    the state that [_get_components_log_probabilities] leaves, it
    raises exactly when the serial path raises, with the same
    exception, and otherwise every column of the serial matrix is the
    column of the debug matrix plus the log-weight of its component. *)
Theorem debug_is_unweighted self samples :
  uniq (dict_keys self) ->
  (_get_components_log_probabilities_debug self samples).2
  = (_get_components_log_probabilities self samples).2
  /\ match (_get_components_log_probabilities self samples).1,
           (_get_components_log_probabilities_debug self samples).1 with
     | Ok M, Ok M' =>
       forall i j,
         M i j = (if dict_get self j is Some c then np_log (c_pi c) else 0)
                 + M' i j
     | Err e, Err e' => e = e'
     | _, _ => False
     end.
Proof.
move=> keys_uniq.
rewrite /_get_components_log_probabilities_debug.
rewrite /_get_components_log_probabilities.
case: _rearrange_input => [Xa|e] //=.
set X := as_matrix _ _ _.
pose off j := if dict_get self j is Some c then np_log (c_pi c) else 0.
have offE kc : List.In kc self -> off kc.1 = np_log (c_pi kc.2).
  by move=> kc_in; rewrite /off (dict_get_item keys_uniq kc_in).
have rel0 i j : (const_mx 0 : 'M[R]_(batch_rows samples, size self)) i j
    = (if (j : nat) \in [::] then off j else 0)
      + (const_mx 0 : 'M[R]_(batch_rows samples, size self)) i j.
  by rewrite mxE addr0.
have [-> sim] := @debug_simulation _ _ X off self [::] (const_mx 0)
  (const_mx 0) self offE rel0; split=> //.
move: sim; case: (foldl _ _ _).1 => [M|e]; case: (foldl _ _ _).1 => [M'|e'] //.
move=> MM' i j; rewrite MM' /=; congr (_ + _).
case: ifP => // /negbT/dict_get_notin; rewrite /off.
by case: (dict_get self j).
Qed.

End DebugVariant.

Lemma debug_is_unweighted_witness :
  uniq (dict_keys two_components)
  /\ (_get_components_log_probabilities_debug two_components origin_batch).2
     = (_get_components_log_probabilities two_components origin_batch).2.
Proof.
split; first by [].
by have [] := @debug_is_unweighted 1 two_components origin_batch isT.
Defined.

(** ** A singular capacitance matrix *)

Section FailedEvaluation.
Variable d : nat.
Implicit Types (self : mixture d) (c : component d).

(** The component dict after a first evaluation whose inversion
    failed: ['inv_sigma1'] is written, the other cache keys are not. *)
Let half_written c : component d :=
  set_inv_sigma1 c (inv_sigma1_of c (np_power_m1_col (c_D c))).

Lemma dict_set_twice (V : Type) (m : pydict V) k v :
  dict_set (dict_set m k v) k v = dict_set m k v.
Proof. by rewrite dict_set_same // dict_get_set eqxx. Qed.

(** X19.  When [np.linalg.inv] fails on the capacitance matrix of an
    uncached component, [_get_component_log_probs] raises [LinAlgError]
    after writing the key ['inv_sigma1'] only; the component then still
    counts as uncached, so every later call raises again and leaves
    that state as it is; the pool task of the parallel path raises the
    same error; the parameters of the mixture are untouched; and some
    noise variance of the component is not positive. *)
Theorem singular_capacitance_fails n self (X : 'M[R]_(n, d)) k c :
  dict_get self k = Some c -> cache_fresh c -> ~~ invertible c ->
  let self1 := dict_set self k (half_written c) in
  [/\ _get_component_log_probs self X k = (Err LinAlgError, self1),
      forall n' (X' : 'M[R]_(n', d)),
        _get_component_log_probs self1 X' k = (Err LinAlgError, self1),
      _get_component_log_probs_task (Task k c X) = Err LinAlgError,
      same_params self self1
    & exists j, c_D c 0 j <= 0].
Proof.
move=> get_k fresh singular self1.
have singular1 : ~~ invertible (half_written c) by [].
have fresh1 : c_c_factor (half_written c) = None by [].
have failE m c0 n0 (Y : 'M[R]_(n0, d)) :
    dict_get m k = Some c0 -> c_c_factor c0 = None -> ~~ invertible c0 ->
    _get_component_log_probs m Y k
    = (Err LinAlgError, dict_set m k (half_written c0)).
  move=> get0 fresh0 /negbTE singular0.
  rewrite /_get_component_log_probs get0 fresh0 /cache_calculations.
  by rewrite /np_linalg_inv -/(invertible c0) singular0.
split.
- exact: failE.
- have get1 : dict_get self1 k = Some (half_written c).
    by rewrite /self1 dict_get_set eqxx.
  move=> n' X'; rewrite (failE _ _ _ X' get1 fresh1 singular1).
  by rewrite -[half_written (half_written c)]/(half_written c) dict_set_twice.
- rewrite /_get_component_log_probs_task /np_linalg_inv /=.
  by rewrite -/(invertible c) (negbTE singular).
- split; first by rewrite dict_keys_set // (dict_get_in get_k).
  move=> k'; rewrite dict_get_set; case: (eqVneq k k') => // <-.
  by rewrite get_k.
case: (boolP [forall j, 0 < c_D c 0 j]) => [/forallP D_gt0|].
  by rewrite /invertible IPiDP_unit in singular.
by rewrite negb_forall => /existsP[j]; rewrite -leNgt => D_le0; exists j.
Qed.

End FailedEvaluation.

Lemma negative_component_singular : ~~ invertible negative_component.
Proof.
rewrite /invertible unitmxE.
have -> : IPiDP negative_component (np_power_m1_col (c_D negative_component))
          = 0.
  apply/matrixP => i j; rewrite /IPiDP /bmul_col !mxE big_ord1 !mxE.
  by rewrite !ord1 /= invrN invr1 mul1r mulrN1 subrr.
by rewrite det0 unitr0.
Qed.

Lemma singular_capacitance_fails_witness :
  [/\ dict_get [:: (0%N, negative_component)] 0 = Some negative_component,
      cache_fresh negative_component & ~~ invertible negative_component]
  /\ (_get_component_log_probs [:: (0%N, negative_component)]
        (0 : 'M[R]_(1, 1)) 0).1
     = Err LinAlgError.
Proof.
split; first by split=> //; exact: negative_component_singular.
have [-> _ _ _ _] :=
  @singular_capacitance_fails 1 1 [:: (0%N, negative_component)] 0 0
    negative_component erefl erefl negative_component_singular.
by [].
Defined.

(** ** What [_rearrange_input] returns *)

(** X20.  Whatever [_rearrange_input] returns is a two-dimensional
    batch with [d] columns that holds the numbers of the input in the
    same order, the mixture has a component, and the returned batch is
    itself accepted and returned unchanged. *)
Theorem rearrange_input_postcondition d (self : mixture d) samples Xa :
  _rearrange_input self samples = Ok Xa ->
  [/\ shape Xa = [:: batch_rows samples; d], data Xa = data samples,
      (0 < size self)%N & _rearrange_input self Xa = Ok Xa].
Proof.
rewrite /_rearrange_input /batch_rows; case: self => [|kc self] //.
case: samples => [[|a [|b [|c shp]]] xs] /=.
- by case: ifP => // _ [<-] /=; rewrite eqxx.
- by case: ifP => // _ [<-] /=; rewrite eqxx.
- by case: ifP => // /eqP -> [<-] /=; rewrite eqxx.
- by case: ifP => // _ [<-] /=; rewrite eqxx.
Qed.

Lemma rearrange_input_postcondition_witness :
  _rearrange_input two_components origin_batch = Ok origin_batch
  /\ shape origin_batch = [:: batch_rows origin_batch; 1%N].
Proof.
have accepted : _rearrange_input two_components origin_batch
                = Ok origin_batch by [].
split; first exact: accepted.
by have [] := rearrange_input_postcondition accepted.
Defined.

(** ** The exceptions of a well-formed mixture *)

Section OnlyLinAlgError.
Variable d : nat.
Implicit Types (self : mixture d) (samples : ndarray).

Lemma singular_component n self (X : 'M[R]_(n, d)) :
  ~~ all (fun k => is_ok (column_of_key self X k)) (dict_keys self) ->
  exists k c, [/\ dict_get self k = Some c, ~~ invertible c
                & exists j, c_D c 0 j <= 0].
Proof.
rewrite -has_predC => /hasP[k /dict_get_some[c get_k] /=].
rewrite (column_of_keyE _ get_k) -/(invertible c).
case: ifP => // /negbT singular _; exists k, c; split=> //.
case: (boolP [forall j, 0 < c_D c 0 j]) => [/forallP D_gt0|].
  by rewrite /invertible IPiDP_unit in singular.
by rewrite negb_forall => /existsP[j]; rewrite -leNgt => D_le0; exists j.
Qed.

(** X21.  On a mixture with ids [0..K-1] and valid caches, and an
    accepted input, the only exception that the serial and the parallel
    path can raise is [LinAlgError] (never [KeyError] or [IndexError]),
    and then some component has a singular capacitance matrix, hence a
    noise variance that is not positive. *)
Theorem wellformed_mixture_raises_only_linalg self samples e :
  contiguous_ids self -> caches_valid self ->
  is_ok (_rearrange_input self samples) ->
  (_get_components_log_probabilities self samples).1 = Err e
  \/ _get_components_log_probabilities_multithreaded self samples = Err e ->
  e = LinAlgError
  /\ exists k c, [/\ dict_get self k = Some c, ~~ invertible c
                   & exists j, c_D c 0 j <= 0].
Proof.
move=> contig valid accepted.
have -> : _get_components_log_probabilities_multithreaded self samples
          = (_get_components_log_probabilities self samples).1.
  rewrite parallel_result // serial_result //.
  case: _rearrange_input accepted => //= Xa _.
  apply/esym/(@pool_merge_perm _ _ _ LinAlgError) => //.
  - by move=> k; exact: column_of_key_cases.
  - exact: contiguous_uniq.
rewrite serial_result //; case: _rearrange_input accepted => //= Xa _.
set X := as_matrix _ _ _; set g := column_of_key self X.
have g_cases : {in dict_keys self, forall k,
    g k = Err LinAlgError \/ exists v, g k = Ok (k, v)}.
  by move=> k; exact: column_of_key_cases.
have := pool_map_tagged g_cases.
have keys_lt : all (fun k => (k < size self)%N) (dict_keys self).
  by apply/allP => k; rewrite contiguous_lt.
case: ifP => [_ [-> tags] /=|/negbT not_all -> /=].
  by rewrite merge_resultsE ?tags ?contiguous_uniq //; case.
have sing := singular_component not_all.
by case=> -[<-].
Qed.

End OnlyLinAlgError.

Lemma negative_component_parallel :
  _get_components_log_probabilities_multithreaded
    [:: (0%N, negative_component)] origin_batch = Err LinAlgError.
Proof.
rewrite /_get_components_log_probabilities_multithreaded /=.
rewrite /_get_component_log_probs_task /np_linalg_inv /=.
by rewrite -/(invertible negative_component)
           (negbTE negative_component_singular).
Qed.

Lemma wellformed_mixture_raises_only_linalg_witness :
  let self : mixture 1 := [:: (0%N, negative_component)] in
  [/\ contiguous_ids self, caches_valid self,
      is_ok (_rearrange_input self origin_batch)
    & _get_components_log_probabilities_multithreaded self origin_batch
      = Err LinAlgError]
  /\ exists k c, dict_get self k = Some c /\ ~~ invertible c.
Proof.
move=> self.
have contig : contiguous_ids self by [].
have valid : caches_valid self by move=> [|k] c //= [<-]; left.
split; first by split=> //; exact: negative_component_parallel.
have [_ [k [c [get_k singular _]]]] :=
  @wellformed_mixture_raises_only_linalg 1 self origin_batch LinAlgError
    contig valid isT (or_intror negative_component_parallel).
by exists k, c.
Defined.

(** ** The log-density as a function of the Gaussian *)

Section CovarianceOnly.
Variable d : nat.
Implicit Types (self : mixture d) (c : component d).

(** X22.  The value of [_get_component_log_probs] is a function of the
    covariance [A A^T + diag(D)] and of the centred rows [x - mu]: two
    components with positive noise variances and valid caches, whatever
    their factors [A] (even of different widths), return the same
    vector on inputs whose rows have the same offsets from the means
    when their covariances are equal. *)
Theorem component_log_probs_depends_on_covariance n self self'
    (X X' : 'M[R]_(n, d)) k k' c c' :
  dict_get self k = Some c -> dict_get self' k' = Some c' ->
  cache_valid c -> cache_valid c' ->
  positive_noise c -> positive_noise c' ->
  Sigma c = Sigma c' ->
  (forall i, row i X - vec_of (c_mu c) = row i X' - vec_of (c_mu c')) ->
  (_get_component_log_probs self X k).1
  = (_get_component_log_probs self' X' k').1.
Proof.
move=> get_k get_k' valid valid' D_gt0 D_gt0' SigmaE offsets.
rewrite (get_component_log_probs_valid X get_k valid).
rewrite (get_component_log_probs_valid X' get_k' valid') /=.
rewrite !component_log_probs_reference //; congr Ok; apply/colP => i.
by rewrite !mxE /reference_log_likelihood /= offsets SigmaE.
Qed.

End CovarianceOnly.

Lemma component_log_probs_depends_on_covariance_witness :
  let c := unit_component half in
  let c' := @Component 1 1 (- 1%:M) (const_mx 1) (NpVec 0) half
              None None None in
  [/\ cache_valid c, cache_valid c', positive_noise c, positive_noise c'
    & Sigma c = Sigma c']
  /\ (_get_component_log_probs [:: (0%N, c)] (0 : 'M[R]_(1, 1)) 0).1
     = (_get_component_log_probs [:: (0%N, c')] (0 : 'M[R]_(1, 1)) 0).1.
Proof.
move=> c c'.
have valid : cache_valid c by left.
have valid' : cache_valid c' by left.
have D_gt0 : positive_noise c := unit_component_positive half.
have D_gt0' : positive_noise c' by move=> j; rewrite /= mxE ltr01.
have SigmaE : Sigma c = Sigma c'.
  by rewrite /Sigma /= linearN /= mulNmx mulmxN opprK.
split; first by [].
exact: (@component_log_probs_depends_on_covariance 1 1 [:: (0%N, c)]
          [:: (0%N, c')] 0 0 0 0 c c' erefl erefl valid valid' D_gt0 D_gt0'
          SigmaE (fun i => erefl)).
Defined.
